(** * Playwright MCP manager (src/runtime/httpClient.ts)

    A shallow embedding of [PlaywrightMcpManager] and of the helper
    functions of its file: the port allocator, the process supervisor,
    the protocol client negotiator and the screenshot pipeline.

    Layout: Part I holds the embedding (data model, platform interface,
    state-and-exception monad, the functions of the file, the events of
    the environment).  Part II holds the lemmas and the theorems about it. *)

From Stdlib Require Import ZArith NArith List String Ascii Bool Lia DecimalString.
From stdpp Require Import base option list gmap sets.

Local Open Scope Z_scope.

(** * Part I. The embedding *)

(** ** JavaScript strings

    A JavaScript string is a sequence of UTF-16 code units; [length],
    [slice], [trim] and a regular expression without the [u] flag all work
    on code units, so a string is a list of code units here. *)

Module Js.

Abbreviation jsstring := (list N).

(** A source literal, written with ASCII characters. *)
Definition lit (s : string) : jsstring :=
  map N_of_ascii (list_ascii_of_string s).

(** [String(n)] for an integer [n]. *)
Definition String_of_int (z : Z) : jsstring :=
  lit (NilZero.string_of_int (Z.to_int z)).

Definition String_of_bool (b : bool) : jsstring :=
  if b then lit "true" else lit "false".

Definition inRange (lo hi c : N) : bool := (lo <=? c)%N && (c <=? hi)%N.

(** The class [\s] of a regular expression, which is also what [trim]
    strips: white space and line terminators. *)
Definition isSpace (c : N) : bool :=
  inRange 9 13 c || (c =? 32)%N || (c =? 160)%N || (c =? 5760)%N
  || inRange 8192 8202 c || (c =? 8232)%N || (c =? 8233)%N
  || (c =? 8239)%N || (c =? 8287)%N || (c =? 12288)%N || (c =? 65279)%N.

(** [s.replace(/C+/g, rep)] for a character class [C]: every maximal run
    of characters of the class is replaced by one copy of [rep].
    [in_run] tells that the previous character belonged to the run whose
    replacement has been emitted already. *)
Fixpoint replaceRunsFrom (cls : N -> bool) (rep : jsstring) (in_run : bool)
  (s : jsstring) : jsstring :=
  match s with
  | [] => []
  | c :: s' =>
      if cls c then
        if in_run then replaceRunsFrom cls rep true s'
        else rep ++ replaceRunsFrom cls rep true s'
      else c :: replaceRunsFrom cls rep false s'
  end.

Definition replaceRuns (cls : N -> bool) (rep s : jsstring) : jsstring :=
  replaceRunsFrom cls rep false s.

Fixpoint dropWhile (cls : N -> bool) (s : jsstring) : jsstring :=
  match s with
  | [] => []
  | c :: s' => if cls c then dropWhile cls s' else s
  end.

Fixpoint takeWhile (cls : N -> bool) (s : jsstring) : jsstring :=
  match s with
  | [] => []
  | c :: s' => if cls c then c :: takeWhile cls s' else []
  end.

Definition trimStart (s : jsstring) : jsstring := dropWhile isSpace s.

Definition trimEnd (s : jsstring) : jsstring := rev (trimStart (rev s)).

Definition trim (s : jsstring) : jsstring := trimEnd (trimStart s).

Definition jseqb (s t : jsstring) : bool := bool_decide (s = t).

Definition endsWith (s suffix : jsstring) : bool :=
  jseqb (drop (length s - length suffix) s) suffix
  && (length suffix <=? length s)%nat.

(** [s.startsWith(pat)] *)
Fixpoint startsWith (s pat : jsstring) : bool :=
  match pat, s with
  | [], _ => true
  | p :: pat', c :: s' => (p =? c)%N && startsWith s' pat'
  | _ :: _, [] => false
  end.

(** [s.replaceAll(pat, rep)] for a non-empty string pattern: matches are
    found left to right and do not overlap.  [skip] counts the characters
    of a match that are still to be passed over. *)
Fixpoint replaceAllFrom (pat rep : jsstring) (skip : nat) (s : jsstring) : jsstring :=
  match s with
  | [] => []
  | c :: s' =>
      match skip with
      | S k => replaceAllFrom pat rep k s'
      | O =>
          if startsWith s pat
          then rep ++ replaceAllFrom pat rep (length pat - 1) s'
          else c :: replaceAllFrom pat rep 0 s'
      end
  end.

Definition replaceAll (pat rep s : jsstring) : jsstring :=
  replaceAllFrom pat rep 0 s.

End Js.

Export Js.

(** ** Values of type [any]

    The tool response is typed [any] and probed by shape, so it is a
    JavaScript value here.  An object is its list of own properties. *)

#[warnings="-register-all"] Inductive jsvalue : Type :=
| JUndefined
| JNull
| JBool (b : bool)
| JNumber (z : Z)
| JString (s : jsstring)
| JArray (items : list jsvalue)
| JObject (props : list (string * jsvalue)).

Fixpoint assoc (k : string) (props : list (string * jsvalue)) : jsvalue :=
  match props with
  | [] => JUndefined
  | (k', v) :: rest => if String.eqb k k' then v else assoc k rest
  end.

(** [v?.k]: the property [k] of [v], [undefined] when [v] is nullish or
    has no such property. *)
Definition prop (k : string) (v : jsvalue) : jsvalue :=
  match v with
  | JObject props => assoc k props
  | _ => JUndefined
  end.

(** [v?.[0]] *)
Definition index0 (v : jsvalue) : jsvalue :=
  match v with
  | JArray (x :: _) => x
  | JObject props => assoc "0" props
  | JString (c :: _) => JString [c]
  | _ => JUndefined
  end.

(** [c && typeof c === "object"] *)
Definition isObjectLike (v : jsvalue) : bool :=
  match v with
  | JObject _ | JArray _ => true
  | _ => false
  end.

(** [v === s] for a string [s] *)
Definition isString (s : jsstring) (v : jsvalue) : bool :=
  match v with
  | JString t => jseqb t s
  | _ => false
  end.

(** [typeof v === "string" ? v : undefined] *)
Definition asString (v : jsvalue) : option jsstring :=
  match v with
  | JString s => Some s
  | _ => None
  end.

(** [Array.isArray(v) ? v.find(p) : null]; both [undefined] and [null]
    are [None]: the callers only probe the result with [?.]. *)
Definition findInArray (p : jsvalue -> bool) (v : jsvalue) : option jsvalue :=
  match v with
  | JArray items => find p items
  | _ => None
  end.

(** ** The string helpers of the file *)

Definition ellipsis : jsstring := [226; 8364; 166]%N.

(** [safeSnippet(text, maxChars = 240)] *)
Definition safeSnippetN (text : jsstring) (maxChars : nat) : jsstring :=
  let clean := trim (replaceRuns isSpace (lit " ") text) in
  if (length clean <=? maxChars)%nat then clean
  else take maxChars clean ++ ellipsis.

Definition safeSnippet (text : jsstring) : jsstring := safeSnippetN text 240.

(** [substituteSessionId(p, sessionId)] *)
Definition substituteSessionId (p sessionId : jsstring) : jsstring :=
  replaceAll (lit "{sessionId}") sessionId p.

(** The class [[A-Za-z0-9_-]] and the sanitizing of the tool name:
    [opts.tool ? opts.tool.replace(/[^A-Za-z0-9_-]+/g, "-") : "call"]. *)
Definition isSafeChar (c : N) : bool :=
  inRange 65 90 c || inRange 97 122 c || inRange 48 57 c
  || (c =? 95)%N || (c =? 45)%N.

Definition isEmpty (s : jsstring) : bool :=
  match s with [] => true | _ => false end.

Definition safeToolOf (tool : option jsstring) : jsstring :=
  match tool with
  | Some t =>
      if isEmpty t then lit "call"
      else replaceRuns (fun c => negb (isSafeChar c)) (lit "-") t
  | None => lit "call"
  end.

(** The base name of the artifact:
    [`${safeTool || "call"}-${opts.callId ?? "auto"}-${Date.now()}.png`]. *)
Definition artifactBaseName (safeTool : jsstring) (callId : option jsstring)
  (timestamp : Z) : jsstring :=
  (if isEmpty safeTool then lit "call" else safeTool)
  ++ lit "-" ++ default (lit "auto") callId
  ++ lit "-" ++ String_of_int timestamp ++ lit ".png".

(** *** [extractFirstLinkedFilePath]

    The regular expression is [/\[[^\]]*]\(([^)]+)\)/g].  A match that
    starts at an opening bracket runs over characters other than the
    closing bracket, then needs the closing bracket and an opening
    parenthesis, then captures one or more characters other than the
    closing parenthesis, and needs the closing parenthesis.  Both
    repetitions stop at the only character that may follow them, so
    backtracking inside a match attempt never finds another match. *)

Definition LBRACKET : N := 91%N.
Definition RBRACKET : N := 93%N.
Definition LPAREN : N := 40%N.
Definition RPAREN : N := 41%N.

(** After the opening bracket: the rest of the text after the closing
    bracket and the opening parenthesis. *)
Fixpoint afterLabel (s : jsstring) : option jsstring :=
  match s with
  | [] => None
  | c :: s' =>
      if (c =? RBRACKET)%N then
        match s' with
        | d :: s'' => if (d =? LPAREN)%N then Some s'' else None
        | [] => None
        end
      else afterLabel s'
  end.

(** The capture group and the rest of the text after the closing
    parenthesis. *)
Fixpoint captureTarget (s : jsstring) : option (jsstring * jsstring) :=
  match s with
  | [] => None
  | c :: s' =>
      if (c =? RPAREN)%N then Some ([], s')
      else
        match captureTarget s' with
        | Some (cap, rest) => Some (c :: cap, rest)
        | None => None
        end
  end.

(** A match of the expression at the head of [s]. *)
Definition matchLinkAt (s : jsstring) : option (jsstring * jsstring) :=
  match s with
  | c :: s1 =>
      if (c =? LBRACKET)%N then
        match afterLabel s1 with
        | Some s2 =>
            match captureTarget s2 with
            | Some (cap, rest) => if isEmpty cap then None else Some (cap, rest)
            | None => None
            end
        | None => None
        end
      else None
  | [] => None
  end.

(** [text.matchAll(re)], as the list of the first capture group: the
    search resumes after a match, and one character further after a
    failed attempt.  The text left gets shorter at every step, so its
    length is fuel enough. *)
Fixpoint matchAllLinksFuel (fuel : nat) (s : jsstring) : list jsstring :=
  match fuel with
  | O => []
  | S fuel' =>
      match s with
      | [] => []
      | _ :: s' =>
          match matchLinkAt s with
          | Some (cap, rest) => cap :: matchAllLinksFuel fuel' rest
          | None => matchAllLinksFuel fuel' s'
          end
      end
  end.

Definition matchAllLinks (s : jsstring) : list jsstring :=
  matchAllLinksFuel (length s) s.

Definition isImagePath (p : jsstring) : bool :=
  endsWith p (lit ".png") || endsWith p (lit ".jpeg") || endsWith p (lit ".jpg").

(** The [candidates] array of [extractFirstLinkedFilePath]. *)
Definition linkCandidates (text : jsstring) : list jsstring :=
  filter (fun raw => isEmpty raw = false) (map trim (matchAllLinks text)).

Definition extractFirstLinkedFilePath (text : jsstring) : option jsstring :=
  let candidates := linkCandidates text in
  match find isImagePath candidates with
  | Some preferred => Some preferred
  | None => head candidates
  end.

(** The argument of [takeScreenshot]. *)
Record ScreenshotOpts := {
  sessionId : jsstring;
  callId : option jsstring;
  tool : option jsstring
}.

(** ** The platform

    Library functions of Node and of the MCP SDK that the file calls and
    whose results depend on the platform: they are an interface here. *)

Record URL := mkURL {
  url_origin : jsstring;
  url_pathname : jsstring;
  url_search : jsstring
}.

Class Platform := {
  (** [path.join(a, b)] *)
  path_join : jsstring -> jsstring -> jsstring;
  (** [path.dirname(p)] *)
  path_dirname : jsstring -> jsstring;
  (** [Buffer.from(s, "base64")], as the bytes of the buffer *)
  base64_decode : jsstring -> list N;
  (** [new URL(s)]; [None] when the constructor throws *)
  URL_parse : jsstring -> option URL
}.

(** ** Data model *)

Record error := mkError {
  error_name : jsstring;
  error_message : jsstring
}.

(** [new Error(msg)] *)
Definition Error (msg : jsstring) : error := mkError (lit "Error") msg.

(** [String(e)] *)
Definition String_of_error (e : error) : jsstring :=
  error_name e ++ lit ": " ++ error_message e.

(** [PlaywrightMcpSection], as far as the file reads it. *)
Record PlaywrightMcpSection := {
  package : jsstring;
  host : jsstring;
  port_start : Z;
  port_end : Z;
  browser : jsstring;
  user_data_dir : jsstring;
  output_dir : jsstring;
  snapshot_mode : jsstring;
  image_responses : jsstring;
  headless : bool;
  executable_path : option jsstring;
  timeout_ms : Z
}.

Record PlaywrightServerInfo := {
  port : Z;
  url : jsstring;
  userDataDir : jsstring;
  outputDir : jsstring
}.

Record ScreenshotResult := {
  savedPath : option jsstring;
  mimeType : option jsstring
}.

(** A [ChildProcess] object.  [killed] is set by a [kill] that delivered
    its signal; [exitCode] stays [null] until the process has exited, and
    also then when a signal ended it.  [exited] tells that the exit event
    was emitted.  [listens_from] is the time from which the process
    accepts connections on [listen_host]:[listen_port], if it ever does. *)
Record ChildProcess := mkChild {
  spawnargs : list jsstring;
  listen_host : jsstring;
  listen_port : Z;
  listens_from : option Z;
  signals : list jsstring;
  killed : bool;
  exitCode : option Z;
  exited : bool
}.

(** The value a start attempt resolves to; [child] refers to the
    [ChildProcess] object by its index in the heap. *)
Record Started := {
  info : PlaywrightServerInfo;
  child : nat
}.

Inductive transport := StreamableHTTP | SSE.

(** A [Client] of the SDK: the transport it is connected through, and
    whether it was closed. *)
Record Client := mkClient {
  connection : option (transport * URL);
  closed : bool
}.

(** A promise: pending with the work [W] that settles it, fulfilled or
    rejected. *)
Inductive promise (W A : Type) : Type :=
| Pending (work : W)
| Fulfilled (value : A)
| Rejected (reason : error).
Arguments Pending {W A} work.
Arguments Fulfilled {W A} value.
Arguments Rejected {W A} reason.

Inductive level := Info | Warn | Debug.

Inductive fsnode := File (data : list N) | Dir.

(** What a tool call does: the files the server writes and the response
    (or the error the call is rejected with). *)
Record ToolOutcome := {
  tool_files : list (jsstring * list N);
  tool_result : error + jsvalue
}.

(** The environment: clock, file system, sockets, and the behaviour of
    the automation server. *)
Record Env := mkEnv {
  now : Z;
  fs : gmap (list N) fsnode;
  fs_readonly : gset (list N);
  bound : gset (list N * Z);
  boot : nat -> option Z;
  connect_ok : transport -> URL -> bool;
  tool_reply : jsstring -> jsstring -> ToolOutcome;
  CHROME_PATH : option jsstring
}.

(** The manager ([startPromise], [clientPromise], [config]), the heap
    of the objects it refers to, what it logged, the connections it
    attempted, and the environment. *)
Record State := mkState {
  config : PlaywrightMcpSection;
  startPromise : option nat;
  clientPromise : option nat;
  startPromises : list (promise unit Started);
  clientPromises : list (promise PlaywrightServerInfo nat);
  children : list ChildProcess;
  clients : list Client;
  timers : list (Z * nat);
  logs : list (level * jsstring);
  connects : list (transport * URL);
  env : Env
}.

Definition set_startPromise (v : option nat) (s : State) : State :=
  mkState (config s) v (clientPromise s) (startPromises s) (clientPromises s)
    (children s) (clients s) (timers s) (logs s) (connects s) (env s).
Definition set_clientPromise (v : option nat) (s : State) : State :=
  mkState (config s) (startPromise s) v (startPromises s) (clientPromises s)
    (children s) (clients s) (timers s) (logs s) (connects s) (env s).
Definition set_startPromises (v : list (promise unit Started)) (s : State) : State :=
  mkState (config s) (startPromise s) (clientPromise s) v (clientPromises s)
    (children s) (clients s) (timers s) (logs s) (connects s) (env s).
Definition set_clientPromises (v : list (promise PlaywrightServerInfo nat))
  (s : State) : State :=
  mkState (config s) (startPromise s) (clientPromise s) (startPromises s) v
    (children s) (clients s) (timers s) (logs s) (connects s) (env s).
Definition set_children (v : list ChildProcess) (s : State) : State :=
  mkState (config s) (startPromise s) (clientPromise s) (startPromises s)
    (clientPromises s) v (clients s) (timers s) (logs s) (connects s) (env s).
Definition set_clients (v : list Client) (s : State) : State :=
  mkState (config s) (startPromise s) (clientPromise s) (startPromises s)
    (clientPromises s) (children s) v (timers s) (logs s) (connects s) (env s).
Definition set_timers (v : list (Z * nat)) (s : State) : State :=
  mkState (config s) (startPromise s) (clientPromise s) (startPromises s)
    (clientPromises s) (children s) (clients s) v (logs s) (connects s) (env s).
Definition set_logs (v : list (level * jsstring)) (s : State) : State :=
  mkState (config s) (startPromise s) (clientPromise s) (startPromises s)
    (clientPromises s) (children s) (clients s) (timers s) v (connects s) (env s).
Definition set_connects (v : list (transport * URL)) (s : State) : State :=
  mkState (config s) (startPromise s) (clientPromise s) (startPromises s)
    (clientPromises s) (children s) (clients s) (timers s) (logs s) v (env s).
Definition set_env (v : Env) (s : State) : State :=
  mkState (config s) (startPromise s) (clientPromise s) (startPromises s)
    (clientPromises s) (children s) (clients s) (timers s) (logs s) (connects s) v.

Definition set_now (v : Z) (e : Env) : Env :=
  mkEnv v (fs e) (fs_readonly e) (bound e) (boot e) (connect_ok e)
    (tool_reply e) (CHROME_PATH e).
Definition set_fs (v : gmap (list N) fsnode) (e : Env) : Env :=
  mkEnv (now e) v (fs_readonly e) (bound e) (boot e) (connect_ok e)
    (tool_reply e) (CHROME_PATH e).

(** [new PlaywrightMcpManager(config, logger)] in an environment. *)
Definition newManager (cfg : PlaywrightMcpSection) (e : Env) : State :=
  mkState cfg None None [] [] [] [] [] [] [] e.

(** ** The monad of the file's code

    A computation runs on the state and returns a value, throws, or is
    [Stuck]: it waits for a promise that nothing in this run settles, or
    a loop ran out of the fuel it was given.  An [async] function is
    run to its end; where one call leaves a promise pending for others
    to share, the split is explicit (see [ensureClient]). *)

Inductive outcome (A : Type) : Type :=
| Ok (a : A)
| Throw (e : error)
| Stuck.
Arguments Ok {A} a.
Arguments Throw {A} e.
Arguments Stuck {A}.

Definition M (A : Type) : Type := State -> outcome A * State.

#[global] Instance M_ret : MRet M := fun A a s => (Ok a, s).

#[global] Instance M_bind : MBind M := fun A B k m s =>
  match m s with
  | (Ok a, s') => k a s'
  | (Throw e, s') => (Throw e, s')
  | (Stuck, s') => (Stuck, s')
  end.

Definition throw {A} (e : error) : M A := fun s => (Throw e, s).
Definition stuck {A} : M A := fun s => (Stuck, s).
Definition gets {A} (f : State -> A) : M A := fun s => (Ok (f s), s).
Definition modify (f : State -> State) : M unit := fun s => (Ok tt, f s).

(** [try { m } catch (e) { h e }] *)
Definition tryCatch {A} (m : M A) (h : error -> M A) : M A := fun s =>
  match m s with
  | (Throw e, s') => h e s'
  | r => r
  end.

(** ** The logger, the file system, the sockets, the processes *)

Definition logger (l : level) (msg : jsstring) : M unit :=
  modify (fun s => set_logs (logs s ++ [(l, msg)]) s).

Definition Date_now : M Z := gets (fun s => now (env s)).

(** [setTimeout(r, ms)] awaited: the clock moves on. *)
Definition sleep (ms : Z) : M unit :=
  modify (fun s => set_env (set_now (now (env s) + ms) (env s)) s).

Definition SystemError (code path : jsstring) : error :=
  mkError (lit "Error") (code ++ lit ": " ++ path).

(** [mkdir(p, { recursive: true })] *)
Definition mkdir (p : jsstring) : M unit := fun s =>
  if bool_decide (p ∈ fs_readonly (env s)) then (Throw (SystemError (lit "EACCES") p), s)
  else
    match fs (env s) !! p with
    | Some (File _) => (Throw (SystemError (lit "EEXIST") p), s)
    | Some Dir => (Ok tt, s)
    | None => (Ok tt, set_env (set_fs (<[p := Dir]> (fs (env s))) (env s)) s)
    end.

(** [writeFile(p, data)] *)
Definition writeFile (p : jsstring) (data : list N) : M unit := fun s =>
  if bool_decide (p ∈ fs_readonly (env s)) then (Throw (SystemError (lit "EACCES") p), s)
  else
    match fs (env s) !! p with
    | Some Dir => (Throw (SystemError (lit "EISDIR") p), s)
    | _ => (Ok tt, set_env (set_fs (<[p := File data]> (fs (env s))) (env s)) s)
    end.

(** [access(p)] *)
Definition access (p : jsstring) : M unit := fun s =>
  match fs (env s) !! p with
  | Some _ => (Ok tt, s)
  | None => (Throw (SystemError (lit "ENOENT") p), s)
  end.

(** A listener holds [h]:[p]: another program's, or a spawned child's
    that has come up and has not exited. *)
Definition childListens (t : Z) (h : jsstring) (p : Z) (c : ChildProcess) : bool :=
  negb (exited c) && jseqb (listen_host c) h && (listen_port c =? p)
  && match listens_from c with
     | Some from => from <=? t
     | None => false
     end.

Definition listening (s : State) (h : jsstring) (p : Z) : bool :=
  bool_decide ((h, p) ∈ bound (env s))
  || existsb (childListens (now (env s)) h p) (children s).

(** [tryPort(host, port)]: a test listener binds and is closed again. *)
Definition tryPort (h : jsstring) (p : Z) : M bool :=
  gets (fun s => negb (listening s h p)).

(** [canConnect(host, port)] *)
Definition canConnect (h : jsstring) (p : Z) : M bool :=
  gets (fun s => listening s h p).

(** [spawn("npx", args, ...)]: a new child process object.  The server
    it runs listens on the host and port of its arguments, from the time
    the environment gives to this spawn. *)
Definition spawn (args : list jsstring) (h : jsstring) (p : Z) : M nat := fun s =>
  let pid := length (children s) in
  let c := mkChild args h p ((fun d => now (env s) + d) <$> boot (env s) pid)
             [] false None false in
  (Ok pid, set_children (children s ++ [c]) s).

(** [child.kill(signal)]: the signal is delivered, and [killed] set,
    when the process has not exited. *)
Definition kill (pid : nat) (signal : jsstring) : M bool := fun s =>
  match children s !! pid with
  | Some c =>
      if exited c then (Ok false, s)
      else
        let c' := mkChild (spawnargs c) (listen_host c) (listen_port c)
                    (listens_from c) (signals c ++ [signal]) true (exitCode c)
                    (exited c) in
        (Ok true, set_children (<[pid := c']> (children s)) s)
  | None => (Ok false, s)
  end.

Definition getChild (pid : nat) : M ChildProcess := fun s =>
  match children s !! pid with
  | Some c => (Ok c, s)
  | None => (Stuck, s)
  end.

(** [setTimeout(() => { if (!child.killed) child.kill("SIGKILL") }, 2_000)] *)
Definition setKillTimer (pid : nat) : M unit :=
  modify (fun s => set_timers (timers s ++ [(now (env s) + 2000, pid)]) s).

(** ** The words of the specification

    Definitions that follow the specification, to compare the code with. *)

(** Every character outside the class is replaced by a dash, one for
    one. *)
Definition sanitizePerChar (t : jsstring) : jsstring :=
  map (fun c => if isSafeChar c then c else 45%N) t.

(** [r] is [s] with every maximal run of characters of the class
    replaced by one copy of [rep]. *)
Inductive RunsReplaced (cls : N -> bool) (rep : jsstring)
  : jsstring -> jsstring -> Prop :=
| RR_nil : RunsReplaced cls rep [] []
| RR_keep c s r :
    cls c = false -> RunsReplaced cls rep s r ->
    RunsReplaced cls rep (c :: s) (c :: r)
| RR_run c run s r :
    forallb cls (c :: run) = true ->
    cls <$> head s <> Some true ->
    RunsReplaced cls rep s r ->
    RunsReplaced cls rep ((c :: run) ++ s) (rep ++ r).

(** The tool name and the file name as the specification words them. *)
Definition specToolName (tool : option jsstring) : jsstring :=
  match tool with
  | Some t => sanitizePerChar t
  | None => lit "call"
  end.

Definition specBaseName (opts : ScreenshotOpts) (timestamp : Z) : jsstring :=
  specToolName (tool opts) ++ lit "-" ++ default (lit "auto") (callId opts)
  ++ lit "-" ++ String_of_int timestamp ++ lit ".png".

(** The first port of [start..end_], ascending, that no listener holds. *)
Definition firstFreePort (s : State) (h : jsstring) (start end_ : Z) : option Z :=
  find (fun q => negb (listening s h q)) (seqZ start (end_ - start + 1)).

(** White space is collapsed in [s]: every white space character is a
    space, and no space follows a space.  [after_space] tells that a
    space precedes [s], so that [s] must not start with one. *)
Fixpoint collapsedFrom (after_space : bool) (s : jsstring) : bool :=
  match s with
  | [] => true
  | c :: s' =>
      if isSpace c
      then (c =? 32)%N && negb after_space && collapsedFrom true s'
      else collapsedFrom false s'
  end.

Definition whitespaceCollapsed (s : jsstring) : bool := collapsedFrom true s.

(** ** Port allocator *)

(** The loop of [findAvailablePort], [n] ports from [p] on. *)
Fixpoint scanPorts (h : jsstring) (p : Z) (n : nat) : M (option Z) :=
  match n with
  | O => mret None
  | S n' =>
      ok ← tryPort h p;
      if (ok : bool) then mret (Some p) else scanPorts h (p + 1) n'
  end.

Definition PortExhausted (start end_ : Z) : error :=
  Error (lit "No open port found for Playwright MCP between "
         ++ String_of_int start ++ lit " and " ++ String_of_int end_).

Definition findAvailablePort (h : jsstring) (start end_ : Z) : M Z :=
  r ← scanPorts h start (Z.to_nat (end_ - start + 1));
  match r with
  | Some p => mret p
  | None => throw (PortExhausted start end_)
  end.

(** ** Readiness wait *)

Definition StartTimeout (h : jsstring) (p : Z) : error :=
  Error (lit "Timed out waiting for Playwright MCP on "
         ++ h ++ lit ":" ++ String_of_int p).

(** The loop of [waitForPortOpen]. *)
Fixpoint pollPort (h : jsstring) (p deadline : Z) (fuel : nat) : M unit :=
  match fuel with
  | O => stuck
  | S fuel' =>
      t ← Date_now;
      if t <? deadline then
        ok ← canConnect h p;
        if (ok : bool) then mret tt
        else sleep 250 ;; pollPort h p deadline fuel'
      else throw (StartTimeout h p)
  end.

Definition waitForPortOpen (h : jsstring) (p timeoutMs : Z) : M unit :=
  t ← Date_now;
  pollPort h p (t + timeoutMs) (Z.to_nat (timeoutMs / 250) + 2).

(** ** Launch arguments *)

Definition chromeCandidates (chromePath : option jsstring) : list jsstring :=
  filter (fun p => isEmpty p = false)
    (default [] chromePath
     :: map lit [ "/usr/bin/google-chrome"; "/usr/bin/google-chrome-stable";
                  "/usr/bin/chromium-browser"; "/usr/bin/chromium";
                  "/Applications/Google Chrome.app/Contents/MacOS/Google Chrome";
                  "C:\Program Files\Google\Chrome\Application\chrome.exe";
                  "C:\Program Files (x86)\Google\Chrome\Application\chrome.exe" ]%string).

(** The first candidate that [access] accepts. *)
Fixpoint firstAccessible (candidates : list jsstring) : M (option jsstring) :=
  match candidates with
  | [] => mret None
  | c :: rest =>
      ok ← tryCatch (access c ;; mret true) (fun _ => mret false);
      if (ok : bool) then mret (Some c) else firstAccessible rest
  end.

Definition findChromeExecutable : M (option jsstring) :=
  chromePath ← gets (fun s => CHROME_PATH (env s));
  firstAccessible (chromeCandidates chromePath).

Record PlaywrightArgs := {
  opt_pkg : jsstring;
  opt_host : jsstring;
  opt_port : Z;
  opt_browser : jsstring;
  opt_userDataDir : jsstring;
  opt_outputDir : jsstring;
  opt_snapshotMode : jsstring;
  opt_imageResponses : jsstring;
  opt_headless : bool;
  opt_executablePath : option jsstring;
  opt_timeoutMs : Z;
  opt_userAgent : option jsstring;
  opt_viewportSize : option jsstring
}.

(** [if (v) args.push(flag, v)] *)
Definition pushOpt (flag : string) (v : option jsstring) : list jsstring :=
  match v with
  | Some x => if isEmpty x then [] else [lit flag; x]
  | None => []
  end.

Definition buildPlaywrightArgs (opts : PlaywrightArgs) : list jsstring :=
  [ lit "-y"; opt_pkg opts;
    lit "--browser"; opt_browser opts;
    lit "--host"; opt_host opts;
    lit "--port"; String_of_int (opt_port opts);
    lit "--user-data-dir"; opt_userDataDir opts;
    lit "--output-dir"; opt_outputDir opts;
    lit "--snapshot-mode"; opt_snapshotMode opts;
    lit "--image-responses"; opt_imageResponses opts;
    lit "--shared-browser-context";
    lit "--timeout-navigation";
    String_of_int (Z.max 1000 (Z.min (opt_timeoutMs opts) 60000)) ]
  ++ pushOpt "--user-agent" (opt_userAgent opts)
  ++ pushOpt "--viewport-size" (opt_viewportSize opts)
  ++ pushOpt "--executable-path" (opt_executablePath opts)
  ++ (if opt_headless opts then [lit "--headless"] else []).

(** ** Promises of the manager *)

Definition newStartPromise : M nat := fun s =>
  (Ok (length (startPromises s)),
   set_startPromises (startPromises s ++ [Pending tt]) s).

Definition settleStart (p : nat) (r : promise unit Started) : M unit :=
  modify (fun s => set_startPromises (<[p := r]> (startPromises s)) s).

(** [await p] for a start promise. *)
Definition awaitStart (p : nat) : M Started := fun s =>
  match startPromises s !! p with
  | Some (Fulfilled started) => (Ok started, s)
  | Some (Rejected e) => (Throw e, s)
  | _ => (Stuck, s)
  end.

Definition newClientPromise (server : PlaywrightServerInfo) : M nat := fun s =>
  (Ok (length (clientPromises s)),
   set_clientPromises (clientPromises s ++ [Pending server]) s).

(** ** The SDK client *)

(** [new Client(...)] *)
Definition newClient : M nat := fun s =>
  (Ok (length (clients s)), set_clients (clients s ++ [mkClient None false]) s).

(** [client.connect(transport)]; the attempt is recorded. *)
Definition connect (c : nat) (t : transport) (u : URL) : M unit := fun s =>
  let s1 := set_connects (connects s ++ [(t, u)]) s in
  if connect_ok (env s) t u
  then (Ok tt, set_clients (<[c := mkClient (Some (t, u)) false]> (clients s1)) s1)
  else (Throw (Error (lit "connect failed")), s1).

(** [client.close()] *)
Definition closeClient (c : nat) : M unit :=
  modify (fun s =>
    match clients s !! c with
    | Some cl => set_clients (<[c := mkClient (connection cl) true]> (clients s)) s
    | None => s
    end).

(** [client.callTool({ name, arguments: { filename } })] *)
Definition callTool (c : nat) (name filename : jsstring) : M jsvalue := fun s =>
  match clients s !! c with
  | Some (mkClient (Some _) false) =>
      let o := tool_reply (env s) name filename in
      let files := foldl (fun m kv => <[kv.1 := File kv.2]> m) (fs (env s)) (tool_files o) in
      let s' := set_env (set_fs files (env s)) s in
      match tool_result o with
      | inl e => (Throw e, s')
      | inr v => (Ok v, s')
      end
  | _ => (Throw (Error (lit "Not connected")), s)
  end.

(** ** [PlaywrightMcpManager] *)

Definition startingMessage (cfg : PlaywrightMcpSection) (p : Z)
  (executablePath : option jsstring) (outDir : jsstring) : jsstring :=
  lit "[playwright-mcp] starting on " ++ host cfg ++ lit ":" ++ String_of_int p
  ++ lit " browser=" ++ browser cfg
  ++ lit " headless=" ++ String_of_bool (headless cfg)
  ++ lit " executable_path=" ++ default (lit "(playwright default)") executablePath
  ++ lit " output_dir=" ++ outDir.

Definition startServer : M Started :=
  cfg ← gets config;
  let userDir := substituteSessionId (user_data_dir cfg) (lit "shared") in
  let outDir := substituteSessionId (output_dir cfg) (lit "shared") in
  mkdir userDir ;;
  mkdir outDir ;;
  p ← findAvailablePort (host cfg) (port_start cfg) (port_end cfg);
  executablePath ← match executable_path cfg with
                   | Some e => mret (Some e)
                   | None => findChromeExecutable
                   end;
  let args := buildPlaywrightArgs
    {| opt_pkg := package cfg; opt_host := host cfg; opt_port := p;
       opt_browser := browser cfg; opt_userDataDir := userDir;
       opt_outputDir := outDir; opt_snapshotMode := snapshot_mode cfg;
       opt_imageResponses := image_responses cfg; opt_headless := headless cfg;
       opt_executablePath := executablePath; opt_timeoutMs := timeout_ms cfg;
       opt_userAgent := None; opt_viewportSize := None |} in
  logger Info (startingMessage cfg p executablePath outDir) ;;
  pid ← spawn args (host cfg) p;
  tryCatch (waitForPortOpen (host cfg) p (timeout_ms cfg))
    (fun e =>
       logger Warn (lit "[playwright-mcp] failed to start on " ++ host cfg
                    ++ lit ":" ++ String_of_int p ++ lit ": " ++ String_of_error e) ;;
       tryCatch (kill pid (lit "SIGTERM") ;; mret tt) (fun _ => mret tt) ;;
       setKillTimer pid ;;
       throw e) ;;
  mret {| info := {| port := p;
                     url := lit "http://" ++ host cfg ++ lit ":"
                            ++ String_of_int p ++ lit "/mcp";
                     userDataDir := userDir;
                     outputDir := outDir |};
          child := pid |}.

(** The first part of [ensureServer]: the cached start, when there is
    one and its process is alive. *)
Definition reuseServer : M (option PlaywrightServerInfo) :=
  cached ← gets startPromise;
  match cached with
  | Some p =>
      started ← awaitStart p;
      c ← getChild (child started);
      if negb (killed c) && bool_decide (exitCode c = None)
      then mret (Some (info started))
      else
        modify (set_startPromise None) ;;
        modify (set_clientPromise None) ;;
        mret None
  | None => mret None
  end.

(** The second part of [ensureServer]:
    [this.startPromise = this.startServer().catch(...)] and the [await]. *)
Definition startAttempt : M PlaywrightServerInfo :=
  p ← newStartPromise;
  modify (set_startPromise (Some p)) ;;
  tryCatch (started ← startServer; settleStart p (Fulfilled started))
    (fun e =>
       modify (set_startPromise None) ;;
       modify (set_clientPromise None) ;;
       settleStart p (Rejected e)) ;;
  started ← awaitStart p;
  mret (info started).

Definition ensureServer : M PlaywrightServerInfo :=
  reuse ← reuseServer;
  match reuse with
  | Some i => mret i
  | None => startAttempt
  end.

Section WithPlatform.
Context {platform : Platform}.

(** [pathname.replace(/\/mcp$/, "") + "/sse"] *)
Definition ssePathname (pathname : jsstring) : jsstring :=
  (if endsWith pathname (lit "/mcp")
   then take (length pathname - 4) pathname
   else pathname) ++ lit "/sse".

(** [new URL(s)] *)
Definition newURL (s : jsstring) : M URL :=
  match URL_parse s with
  | Some u => mret u
  | None => throw (mkError (lit "TypeError") (lit "Invalid URL"))
  end.

Definition createClient (server : PlaywrightServerInfo) : M nat :=
  client ← newClient;
  primary ← newURL (url server);
  connected ← tryCatch (connect client StreamableHTTP primary ;; mret true)
    (fun e =>
       logger Warn (lit "[playwright-mcp] streamable HTTP connect failed ("
                    ++ String_of_error e ++ lit "), falling back to SSE") ;;
       mret false);
  if (connected : bool) then mret client
  else
    sseUrl ← newURL (url server);
    connect client SSE
      (mkURL (url_origin sseUrl) (ssePathname (url_pathname sseUrl)) (url_search sseUrl)) ;;
    mret client.

(** [ensureClient] has no [await]: it returns the cached promise, or the
    promise of the negotiation it starts. *)
Definition ensureClient (server : PlaywrightServerInfo) : M nat :=
  cached ← gets clientPromise;
  match cached with
  | Some p => mret p
  | None =>
      p ← newClientPromise server;
      modify (set_clientPromise (Some p)) ;;
      mret p
  end.

(** The negotiation behind a pending client promise runs to its end
    and settles the promise. *)
Definition settleClient (p : nat) : M unit := fun s =>
  match clientPromises s !! p with
  | Some (Pending server) =>
      match createClient server s with
      | (Ok c, s') => (Ok tt, set_clientPromises (<[p := Fulfilled c]> (clientPromises s')) s')
      | (Throw e, s') => (Ok tt, set_clientPromises (<[p := Rejected e]> (clientPromises s')) s')
      | (Stuck, s') => (Stuck, s')
      end
  | _ => (Ok tt, s)
  end.

Definition readClientPromise (p : nat) : M nat := fun s =>
  match clientPromises s !! p with
  | Some (Fulfilled c) => (Ok c, s)
  | Some (Rejected e) => (Throw e, s)
  | _ => (Stuck, s)
  end.

(** [await p] for a client promise. *)
Definition awaitClient (p : nat) : M nat :=
  settleClient p ;; readClientPromise p.

(** The first half of [stop]: the cached client, if any, is closed. *)
Definition stopClient : M unit :=
  cachedClient ← gets clientPromise;
  client ← match cachedClient with
           | Some p => tryCatch (c ← awaitClient p; mret (Some c)) (fun _ => mret None)
           | None => mret None
           end;
  match client with
  | Some c => tryCatch (closeClient c) (fun _ => mret tt)
  | None => mret tt
  end.

(** The second half of [stop]: the cached process, if any and not
    killed yet, is sent SIGTERM, and SIGKILL two seconds later if it is
    not killed then. *)
Definition stopServer : M unit :=
  cachedStart ← gets startPromise;
  proc ← match cachedStart with
          | Some p => tryCatch (st ← awaitStart p; mret (Some st)) (fun _ => mret None)
          | None => mret None
          end;
  match proc with
  | Some st =>
      c ← getChild (child st);
      if negb (killed c)
      then kill (child st) (lit "SIGTERM") ;; setKillTimer (child st)
      else mret tt
  | None => mret tt
  end.

Definition stop : M unit := stopClient ;; stopServer.

Definition isTrue (v : jsvalue) : bool :=
  match v with JBool true => true | _ => false end.

Definition isImageBlock (c : jsvalue) : bool :=
  isObjectLike c && isString (lit "image") (prop "type" c).

Definition isTextBlock (c : jsvalue) : bool :=
  isObjectLike c && isString (lit "text") (prop "type" c)
  && bool_decide (is_Some (asString (prop "text" c))).

Definition nonEmpty (s : jsstring) : option jsstring :=
  if isEmpty s then None else Some s.

(** [[linkedPath, expectedPath].filter(...)] *)
Definition screenshotCandidates (linkedPath : option jsstring)
  (expectedPath : jsstring) : list jsstring :=
  filter (fun p => isEmpty p = false)
    (match linkedPath with Some l => [l] | None => [] end ++ [expectedPath]).

(** What [takeScreenshot] does with the response of the tool
    (the [try] block after [callTool]). *)
Definition screenshotFromResponse (res : jsvalue) (expectedPath : jsstring)
  : M (option ScreenshotResult) :=
  if isTrue (prop "isError" res) then
    let msg := default [] (asString (prop "text" (index0 (prop "content" res)))) in
    logger Debug (lit "[playwright-mcp] screenshot tool error: " ++ safeSnippet msg) ;;
    mret None
  else
    let imageBlock := findInArray isImageBlock (prop "content" res) in
    let mime := imageBlock ≫= (fun b => asString (prop "mimeType" b)) in
    let base64 := imageBlock ≫= (fun b => asString (prop "data" b)) in
    match base64 ≫= nonEmpty with
    | Some b =>
        writeFile expectedPath (base64_decode b) ;;
        mret (Some {| savedPath := Some expectedPath; mimeType := mime |})
    | None =>
        let fromText := findInArray isTextBlock (prop "content" res)
                        ≫= (fun b => asString (prop "text" b)) in
        let linkedPath := fromText ≫= extractFirstLinkedFilePath in
        found ← firstAccessible (screenshotCandidates linkedPath expectedPath);
        mret ((fun c => {| savedPath := Some c; mimeType := mime |}) <$> found)
    end.

Definition relFileNameOf (opts : ScreenshotOpts) (timestamp : Z) : jsstring :=
  path_join (sessionId opts)
    (artifactBaseName (safeToolOf (tool opts)) (callId opts) timestamp).

(** The [try] ... [catch] statement of [takeScreenshot]. *)
Definition produceArtifact (client : nat) (relFileName expectedPath : jsstring)
  : M (option ScreenshotResult) :=
  tryCatch
    (res ← callTool client (lit "browser_take_screenshot") relFileName;
     screenshotFromResponse res expectedPath)
    (fun e =>
       logger Debug (lit "[playwright-mcp] screenshot failed: " ++ String_of_error e) ;;
       mret None).

Definition takeScreenshot (opts : ScreenshotOpts) : M (option ScreenshotResult) :=
  server ← ensureServer;
  cp ← ensureClient server;
  client ← awaitClient cp;
  t ← Date_now;
  let relFileName := relFileNameOf opts t in
  let expectedPath := path_join (outputDir server) relFileName in
  mkdir (path_dirname expectedPath) ;;
  produceArtifact client relFileName expectedPath.

End WithPlatform.

(** ** The response as the specification reads it

    The variants of a tool response in their order of precedence: an
    explicit error; an inline image with base64 data; anything else, with
    the text of the first text block when there is one. *)



(** [p] exists on disk. *)
Definition onDisk (s : State) (p : jsstring) : bool :=
  bool_decide (is_Some (fs (env s) !! p)).

(** ** Events

    Between the calls of the manager's methods the environment acts: a
    child process exits or writes to its output, a timer fires, the world
    changes.  The handlers are those that [startServer] and [stop]
    register. *)

Definition String_of_code (code : option Z) : jsstring :=
  match code with
  | Some c => String_of_int c
  | None => lit "null"
  end.

(** The child's [exit] event and the handler registered for it. *)
Definition childExits (pid : nat) (code : option Z) (signal : option jsstring)
  : M unit := fun s =>
  match children s !! pid with
  | Some c =>
      if exited c then (Ok tt, s)
      else
        let c' := mkChild (spawnargs c) (listen_host c) (listen_port c)
                    (listens_from c) (signals c) (killed c) code true in
        (logger Warn (lit "[playwright-mcp] exited code=" ++ String_of_code code
                      ++ lit " signal=" ++ default (lit "null") signal) ;;
         modify (set_startPromise None) ;;
         modify (set_clientPromise None))
          (set_children (<[pid := c']> (children s)) s)
  | None => (Ok tt, s)
  end.

(** The [data] events of the child's output streams. *)
Definition childWrites (toStderr : bool) (text : jsstring) : M unit :=
  let t := trim text in
  if isEmpty t then mret tt
  else if toStderr then logger Warn (lit "[playwright-mcp] stderr: " ++ t)
  else logger Debug (lit "[playwright-mcp] " ++ t).

(** A timer that is due fires: [if (!child.killed) child.kill("SIGKILL")]. *)
Definition timerFires (i : nat) : M unit :=
  ts ← gets timers;
  t ← Date_now;
  match ts !! i with
  | Some (due, pid) =>
      if due <=? t then
        modify (set_timers (delete i ts)) ;;
        c ← getChild pid;
        if negb (killed c)
        then tryCatch (kill pid (lit "SIGKILL") ;; mret tt) (fun _ => mret tt)
        else mret tt
      else mret tt
  | None => mret tt
  end.

Inductive event :=
| CallEnsureServer
| CallStop
| CallTakeScreenshot (opts : ScreenshotOpts)
| ChildExits (pid : nat) (code : option Z) (signal : option jsstring)
| ChildWrites (toStderr : bool) (text : jsstring)
| TimerFires (i : nat)
| EnvChanges (f : Env -> Env).

Section Events.
Context {platform : Platform}.

Definition handle (ev : event) : M unit :=
  match ev with
  | CallEnsureServer => ensureServer ;; mret tt
  | CallStop => stop
  | CallTakeScreenshot opts => takeScreenshot opts ;; mret tt
  | ChildExits pid code signal => childExits pid code signal
  | ChildWrites toStderr text => childWrites toStderr text
  | TimerFires i => timerFires i
  | EnvChanges f => modify (fun s => set_env (f (env s)) s)
  end.

(** The state after an event, whatever the call returned. *)
Definition after (ev : event) (s : State) : State := (handle ev s).2.

Definition run (evs : list event) (s : State) : State := foldl (flip after) s evs.

(** The states a manager can be in: those a history of events leads to,
    from a new manager. *)
Definition reachable (s : State) : Prop :=
  exists cfg e evs, s = run evs (newManager cfg e).

(** A process the manager spawned is live when it was not killed and
    has no exit code. *)
Definition live (c : ChildProcess) : bool :=
  negb (killed c) && bool_decide (exitCode c = None).

Definition liveCount (s : State) : nat := length (filter (fun c => live c = true) (children s)).

End Events.

(** ** A platform and an environment to run the code on

    A POSIX-like platform: paths are joined with a slash, the base64
    decoder is lenient as Node's is (both alphabets, padding ends the
    input, other characters are skipped), and a URL is split at the first
    slash after its scheme and at the query. *)

Module Sample.

Definition SLASH : N := 47%N.

Definition join (a b : jsstring) : jsstring :=
  if isEmpty a then b else if isEmpty b then a else a ++ [SLASH] ++ b.

Fixpoint dropLastSegment (s : jsstring) : jsstring :=
  match s with
  | [] => []
  | c :: s' => if (c =? SLASH)%N then s' else dropLastSegment s'
  end.

Definition dirname (p : jsstring) : jsstring :=
  if existsb (fun c => (c =? SLASH)%N) p then rev (dropLastSegment (rev p))
  else lit ".".

Definition sextet (c : N) : option N :=
  if inRange 65 90 c then Some (c - 65)%N
  else if inRange 97 122 c then Some (c - 71)%N
  else if inRange 48 57 c then Some (c + 4)%N
  else if (c =? 43)%N || (c =? 45)%N then Some 62%N
  else if (c =? 47)%N || (c =? 95)%N then Some 63%N
  else None.

Fixpoint sextets (s : jsstring) : list N :=
  match s with
  | [] => []
  | c :: s' =>
      if (c =? 61)%N then []
      else match sextet c with
           | Some v => v :: sextets s'
           | None => sextets s'
           end
  end.

Fixpoint bytesOfSextets (fuel : nat) (l : list N) : list N :=
  match fuel with
  | O => []
  | S fuel' =>
      match l with
      | a :: b :: c :: d :: rest =>
          (a * 4 + b / 16)%N :: ((b mod 16) * 16 + c / 4)%N
          :: ((c mod 4) * 64 + d)%N :: bytesOfSextets fuel' rest
      | [a; b; c] => [(a * 4 + b / 16)%N; ((b mod 16) * 16 + c / 4)%N]
      | [a; b] => [(a * 4 + b / 16)%N]
      | _ => []
      end
  end.

Definition decode (s : jsstring) : list N :=
  let l := sextets s in bytesOfSextets (length l) l.

Fixpoint splitAt (stop : N -> bool) (s : jsstring) : jsstring * jsstring :=
  match s with
  | [] => ([], [])
  | c :: s' =>
      if stop c then ([], s)
      else let '(a, b) := splitAt stop s' in (c :: a, b)
  end.

Definition parse (s : jsstring) : option URL :=
  if startsWith s (lit "http://") then
    let '(authority, rest) := splitAt (fun c => (c =? SLASH)%N) (drop 7 s) in
    let '(pathname, search) := splitAt (fun c => (c =? 63)%N) rest in
    if isEmpty authority then None
    else Some (mkURL (lit "http://" ++ authority)
                 (if isEmpty pathname then [SLASH] else pathname) search)
  else None.

Definition posix : Platform :=
  {| path_join := join; path_dirname := dirname;
     base64_decode := decode; URL_parse := parse |}.

Definition cfg : PlaywrightMcpSection :=
  {| package := lit "@playwright/mcp@latest";
     host := lit "127.0.0.1";
     port_start := 5000;
     port_end := 5002;
     browser := lit "chrome";
     user_data_dir := lit "/data/{sessionId}/profile";
     output_dir := lit "/data/{sessionId}/out";
     snapshot_mode := lit "incremental";
     image_responses := lit "allow";
     headless := true;
     executable_path := None;
     timeout_ms := 1000 |}.

(** The response of the spec's example: a text block with a link. *)
Definition linkResponse : jsvalue :=
  JObject [("content"%string,
            JArray [JObject [("type"%string, JString (lit "text"));
                             ("text"%string, JString (lit "See [shot](/tmp/out/a.png)"))]])].

Definition imageResponse : jsvalue :=
  JObject [("content"%string,
            JArray [JObject [("type"%string, JString (lit "image"));
                             ("data"%string, JString (lit "aGk="));
                             ("mimeType"%string, JString (lit "image/png"))]])].

Definition errorResponse (msg : jsstring) : jsvalue :=
  JObject [("isError"%string, JBool true);
           ("content"%string,
            JArray [JObject [("type"%string, JString (lit "text"));
                             ("text"%string, JString msg)]])].

(** An environment in which everything works: no port is taken, a
    spawned server listens after half a second, both transports connect,
    and the tool writes its file and answers with a link to it. *)
Definition world : Env :=
  {| now := 1700000000000;
     fs := ∅;
     fs_readonly := ∅;
     bound := ∅;
     boot := fun _ => Some 500;
     connect_ok := fun _ _ => true;
     tool_reply := fun _ _ =>
       {| tool_files := [(lit "/tmp/out/a.png", [137; 80; 78; 71]%N)];
          tool_result := inr linkResponse |};
     CHROME_PATH := None |}.

Definition withBound (ports : list Z) (e : Env) : Env :=
  mkEnv (now e) (fs e) (fs_readonly e)
    (list_to_set (map (fun p => (lit "127.0.0.1", p)) ports))
    (boot e) (connect_ok e) (tool_reply e) (CHROME_PATH e).

Definition withConnect (ok : transport -> URL -> bool) (e : Env) : Env :=
  mkEnv (now e) (fs e) (fs_readonly e) (bound e) (boot e) ok
    (tool_reply e) (CHROME_PATH e).

Definition withBoot (b : nat -> option Z) (e : Env) : Env :=
  mkEnv (now e) (fs e) (fs_readonly e) (bound e) b (connect_ok e)
    (tool_reply e) (CHROME_PATH e).

Definition withReadonly (ps : list jsstring) (e : Env) : Env :=
  mkEnv (now e) (fs e) (list_to_set ps) (bound e) (boot e) (connect_ok e)
    (tool_reply e) (CHROME_PATH e).

Definition withTool (r : ToolOutcome) (e : Env) : Env :=
  mkEnv (now e) (fs e) (fs_readonly e) (bound e) (boot e) (connect_ok e)
    (fun _ _ => r) (CHROME_PATH e).

Definition opts : ScreenshotOpts :=
  {| sessionId := lit "s1"; callId := None; tool := Some (lit "browser click") |}.

End Sample.

(** ** Predicates on computations and states *)

(** [s'] differs from [s] only outside the manager's fields, the promises
    and the child processes. *)
Definition outer (s s' : State) : Prop :=
  config s' = config s /\ startPromise s' = startPromise s
  /\ clientPromise s' = clientPromise s /\ startPromises s' = startPromises s
  /\ clientPromises s' = clientPromises s /\ children s' = children s.

(** The same, but for the child processes. *)
Definition agree (s s' : State) : Prop :=
  config s' = config s /\ startPromise s' = startPromise s
  /\ clientPromise s' = clientPromise s /\ startPromises s' = startPromises s
  /\ clientPromises s' = clientPromises s.

(** [s'] has the manager's fields and the start promises of [s], and
    as many client promises and child processes. *)
Definition similar (s s' : State) : Prop :=
  config s' = config s /\ startPromise s' = startPromise s
  /\ clientPromise s' = clientPromise s /\ startPromises s' = startPromises s
  /\ length (clientPromises s') = length (clientPromises s)
  /\ length (children s') = length (children s).

(** [m] keeps [P], however it ends. *)
Definition maintains {A} (P : State -> Prop) (m : M A) : Prop :=
  forall s, P s -> P (m s).2.

(** [m] changes the state only outside the manager's fields, the promises
    and the child processes. *)
Definition framed {A} (m : M A) : Prop := forall s, outer s (m s).2.

(** [m] returns or throws: it is never stuck. *)
Definition total {A} (m : M A) : Prop := forall s, (m s).1 <> Stuck.

(** The cached promises of a manager are in the heap, and the cached
    start is fulfilled with a child process of the heap. *)
Definition cacheSettled (s : State) : Prop :=
  (forall p, startPromise s = Some p ->
     exists st, startPromises s !! p = Some (Fulfilled st)
                /\ (child st < length (children s))%nat)
  /\ (forall p, clientPromise s = Some p -> (p < length (clientPromises s))%nat).

(** The child process [pid] is marked killed. *)
Definition killedAt (pid : nat) (s : State) : Prop :=
  exists c, children s !! pid = Some c /\ killed c = true.

(** The state in which [startAttempt] runs [startServer]: a new pending
    promise is cached. *)
Definition pendingStart (s : State) : State :=
  set_startPromise (Some (length (startPromises s)))
    (set_startPromises (startPromises s ++ [Pending tt]) s).

(** The state after the cached promises are dropped. *)
Definition cleared (s : State) : State :=
  set_clientPromise None (set_startPromise None s).

(** ** The proxy-aware fetch

    [envHasProxy] and [fetchWithProxy].  [process.env] is a partial map
    from names to strings; the options of a request are the properties of
    the [init] object, [None] when no [init] is passed. *)

Definition proxyKeys : list string :=
  ["HTTPS_PROXY"; "https_proxy"; "HTTP_PROXY"; "http_proxy"; "ALL_PROXY"; "all_proxy"]%string.

(** [typeof v === "string" && v.trim().length > 0] *)
Definition isSetVariable (v : option jsstring) : bool :=
  match v with
  | Some x => negb (isEmpty (trim x))
  | None => false
  end.

Definition envHasProxy (penv : string -> option jsstring) : bool :=
  existsb (fun key => isSetVariable (penv key)) proxyKeys.

(** [envHasProxy() ? new EnvHttpProxyAgent() : null], with [agent] the
    object the constructor returns. *)
Definition proxyAgentOf (penv : string -> option jsstring) (agent : jsvalue)
  : option jsvalue :=
  if envHasProxy penv then Some agent else None.

(** The truth value of a JavaScript value. *)
Definition truthy (v : jsvalue) : bool :=
  match v with
  | JUndefined | JNull => false
  | JBool b => b
  | JNumber z => negb (z =? 0)
  | JString x => negb (isEmpty x)
  | JArray _ | JObject _ => true
  end.

(** [k in o] *)
Fixpoint hasProp (k : string) (props : list (string * jsvalue)) : bool :=
  match props with
  | [] => false
  | (k', _) :: rest => String.eqb k k' || hasProp k rest
  end.

(** [{ ...o, k: v }]: the property is replaced where it stands, or added
    at the end. *)
Fixpoint setProp (k : string) (v : jsvalue) (props : list (string * jsvalue))
  : list (string * jsvalue) :=
  match props with
  | [] => [(k, v)]
  | (k', v') :: rest =>
      if String.eqb k k' then (k', v) :: rest else (k', v') :: setProp k v rest
  end.

(** [fetchWithProxy(input, init)], as the call of [undiciFetch] it
    makes: the input, which it passes on, and the options. *)
Definition fetchWithProxy {I : Type} (proxyAgent : option jsvalue) (input : I)
  (init : option (list (string * jsvalue)))
  : I * option (list (string * jsvalue)) :=
  match proxyAgent with
  | None => (input, init)
  | Some agent =>
      match init with
      | Some o =>
          if hasProp "dispatcher" o && truthy (assoc "dispatcher" o)
          then (input, Some o)
          else (input, Some (setProp "dispatcher" agent o))
      | None => (input, Some [("dispatcher"%string, agent)])
      end
  end.

(** The properties of the options, [undefined] for each when there are
    no options. *)
Definition optionOf (k : string) (init : option (list (string * jsvalue))) : jsvalue :=
  match init with
  | Some o => assoc k o
  | None => JUndefined
  end.

(** The state [s] at the time [t]: only the clock differs. *)
Definition atTime (t : Z) (s : State) : State :=
  set_env (set_now t (env s)) s.

(** The state [s] with the files [f]: only the file system differs. *)
Definition withFs (f : gmap (list N) fsnode) (s : State) : State :=
  set_env (set_fs f (env s)) s.

(** The arguments [startServer] launches the server with, on port [p]
    and with the executable [exe]. *)
Definition launchArgs (cfg : PlaywrightMcpSection) (p : Z) (exe : option jsstring)
  : list jsstring :=
  buildPlaywrightArgs
    {| opt_pkg := package cfg; opt_host := host cfg; opt_port := p;
       opt_browser := browser cfg;
       opt_userDataDir := substituteSessionId (user_data_dir cfg) (lit "shared");
       opt_outputDir := substituteSessionId (output_dir cfg) (lit "shared");
       opt_snapshotMode := snapshot_mode cfg;
       opt_imageResponses := image_responses cfg; opt_headless := headless cfg;
       opt_executablePath := exe; opt_timeoutMs := timeout_ms cfg;
       opt_userAgent := None; opt_viewportSize := None |}.

(** The state after [startServer] has spawned the server on port [p]:
    the directories made, the start logged, the child process in the
    heap. *)
Definition spawnedState (f : gmap (list N) fsnode) (p : Z) (exe : option jsstring)
  (s : State) : State :=
  let cfg := config s in
  set_children
    (children s
     ++ [mkChild (launchArgs cfg p exe) (host cfg) p
           ((fun d => now (env s) + d) <$> boot (env s) (length (children s)))
           [] false None false])
    (set_logs
       (logs s ++ [(Info, startingMessage cfg p exe
                            (substituteSessionId (output_dir cfg) (lit "shared")))])
       (withFs f s)).

(** ** The kill timers

    [s] has the processes and the timers of [s0]. *)
Definition sameProcs (s0 s : State) : Prop :=
  children s = children s0 /\ timers s = timers s0.

(** [m] leaves the processes and the timers as they are. *)
Definition steady {A} (m : M A) : Prop := forall s, sameProcs s (m s).2.

(** No process has been sent SIGKILL, and every kill timer is for a
    process that is marked killed or has exited. *)
Definition quiet (s : State) : Prop :=
  Forall (fun c => lit "SIGKILL" ∉ signals c) (children s)
  /\ Forall (fun t => exists c, children s !! t.2 = Some c
                                /\ (killed c = true \/ exited c = true))
       (timers s).

(** * Part II. Lemmas and theorems *)

(** ** Strings *)

Lemma replaceRunsFrom_in_run cls rep s :
  replaceRunsFrom cls rep true s = replaceRunsFrom cls rep false (dropWhile cls s).
Proof.
  induction s as [|c s IH]; simpl; [reflexivity|].
  destruct (cls c) eqn:Hc; simpl; [exact IH|].
  rewrite Hc. reflexivity.
Qed.

Lemma replaceRuns_keep cls rep c s :
  cls c = false -> replaceRuns cls rep (c :: s) = c :: replaceRuns cls rep s.
Proof. intros Hc. unfold replaceRuns. simpl. rewrite Hc. reflexivity. Qed.

Lemma dropWhile_run cls run s :
  forallb cls run = true -> cls <$> head s <> Some true ->
  dropWhile cls (run ++ s) = s.
Proof.
  intros Hrun Hs. induction run as [|c run IH]; simpl in *.
  - destruct s as [|d s]; simpl in *; [reflexivity|].
    destruct (cls d); [congruence | reflexivity].
  - apply andb_prop in Hrun as [Hc Hrun]. rewrite Hc. auto.
Qed.

Lemma replaceRuns_run cls rep c run s :
  forallb cls (c :: run) = true -> cls <$> head s <> Some true ->
  replaceRuns cls rep ((c :: run) ++ s) = rep ++ replaceRuns cls rep s.
Proof.
  intros Hrun Hs. simpl in Hrun. apply andb_prop in Hrun as [Hc Hrun].
  unfold replaceRuns. simpl. rewrite Hc, replaceRunsFrom_in_run.
  rewrite dropWhile_run; auto.
Qed.

Lemma takeWhile_dropWhile cls s : takeWhile cls s ++ dropWhile cls s = s.
Proof.
  induction s as [|c s IH]; simpl; [reflexivity|].
  destruct (cls c); simpl; [f_equal; exact IH | reflexivity].
Qed.

Lemma takeWhile_all cls s : forallb cls (takeWhile cls s) = true.
Proof.
  induction s as [|c s IH]; simpl; [reflexivity|].
  destruct (cls c) eqn:Hc; simpl; [rewrite Hc; exact IH | reflexivity].
Qed.

Lemma dropWhile_head cls s : cls <$> head (dropWhile cls s) <> Some true.
Proof.
  induction s as [|c s IH]; simpl; [discriminate|].
  destruct (cls c) eqn:Hc; [exact IH | simpl; congruence].
Qed.

Lemma dropWhile_length cls s : (length (dropWhile cls s) <= length s)%nat.
Proof.
  induction s as [|c s IH]; simpl; [lia|].
  destruct (cls c); simpl; lia.
Qed.

(** The code replaces runs: its result stands in [RunsReplaced] to its
    argument. *)
Lemma replaceRuns_RunsReplaced cls rep s :
  RunsReplaced cls rep s (replaceRuns cls rep s).
Proof.
  remember (length s) as n eqn:Hn.
  revert s Hn. induction n as [n IH] using lt_wf_ind. intros s Hn.
  destruct s as [|c s].
  - constructor.
  - destruct (cls c) eqn:Hc.
    + rewrite <- (takeWhile_dropWhile cls s).
      rewrite app_comm_cons, replaceRuns_run.
      * apply RR_run.
        -- simpl. rewrite Hc. apply takeWhile_all.
        -- apply dropWhile_head.
        -- eapply IH; [|reflexivity]. subst n. simpl.
           pose proof (dropWhile_length cls s). lia.
      * simpl. rewrite Hc. apply takeWhile_all.
      * apply dropWhile_head.
    + rewrite replaceRuns_keep by exact Hc.
      apply RR_keep; [exact Hc|]. eapply IH; [|reflexivity]. subst n. simpl. lia.
Qed.

(** [RunsReplaced] determines the result. *)
Lemma RunsReplaced_replaceRuns cls rep s r :
  RunsReplaced cls rep s r -> r = replaceRuns cls rep s.
Proof.
  induction 1 as [|c s r Hc _ IH|c run s r Hrun Hs _ IH].
  - reflexivity.
  - rewrite replaceRuns_keep by exact Hc. congruence.
  - rewrite replaceRuns_run by assumption. congruence.
Qed.

Lemma replaceRunsFrom_Forall (P : N -> Prop) cls rep b s :
  Forall P rep -> (forall c, cls c = false -> P c) ->
  Forall P (replaceRunsFrom cls rep b s).
Proof.
  intros Hrep Hcls. revert b. induction s as [|c s IH]; intros b; simpl.
  - constructor.
  - destruct (cls c) eqn:Hc.
    + destruct b; [apply IH|]. apply Forall_app. split; [exact Hrep | apply IH].
    + constructor; [apply Hcls, Hc | apply IH].
Qed.

Lemma replaceRunsFrom_id cls rep s :
  forallb (fun c => negb (cls c)) s = true -> replaceRunsFrom cls rep false s = s.
Proof.
  induction s as [|c s IH]; simpl; [reflexivity|].
  intros H. apply andb_prop in H as [Hc Hs].
  destruct (cls c); [discriminate|]. f_equal. auto.
Qed.

Lemma safeToolOf_safe tool : Forall (fun c => isSafeChar c = true) (safeToolOf tool).
Proof.
  assert (Hcall : Forall (fun c => isSafeChar c = true) (lit "call")).
  { repeat constructor. }
  destruct tool as [t|]; simpl; [|exact Hcall].
  destruct (isEmpty t); [exact Hcall|].
  apply replaceRunsFrom_Forall.
  - repeat constructor.
  - intros c Hc. destruct (isSafeChar c); [reflexivity | discriminate].
Qed.

Lemma safeToolOf_nonempty tool : isEmpty (safeToolOf tool) = false.
Proof.
  destruct tool as [t|]; simpl; [|reflexivity].
  destruct t as [|c t]; simpl; [reflexivity|].
  unfold replaceRuns. simpl. destruct (negb (isSafeChar c)); reflexivity.
Qed.

Section Naming.
Context {platform : Platform}.

(** C7, as the code has it: the tool name is either the default
    (tool absent or empty) or the tool with every maximal run of
    characters outside the class replaced by one dash, it holds only
    characters of the class, and the file name is the session joined with
    tool, call id or auto, and time stamp. *)
Theorem relFileName_composed (opts : ScreenshotOpts) (timestamp : Z) :
  relFileNameOf opts timestamp
  = path_join (sessionId opts)
      (safeToolOf (tool opts) ++ lit "-" ++ default (lit "auto") (callId opts)
       ++ lit "-" ++ String_of_int timestamp ++ lit ".png")
  /\ Forall (fun c => isSafeChar c = true) (safeToolOf (tool opts))
  /\ match tool opts with
     | Some (c :: t) =>
         RunsReplaced (fun c => negb (isSafeChar c)) (lit "-") (c :: t)
           (safeToolOf (tool opts))
     | _ => safeToolOf (tool opts) = lit "call"
     end.
Proof.
  split; [|split].
  - unfold relFileNameOf, artifactBaseName.
    rewrite safeToolOf_nonempty. reflexivity.
  - apply safeToolOf_safe.
  - destruct (tool opts) as [[|c t]|]; try reflexivity.
    apply replaceRuns_RunsReplaced.
Qed.

End Naming.

(** C7 as stated fails: two adjacent characters outside the class become
    one dash in the code, and two when each character is replaced. *)
Lemma relFileName_not_per_char :
  let opts := {| sessionId := lit "s1"; callId := None; tool := Some (lit "a!!b") |} in
  @relFileNameOf Sample.posix opts 7 = lit "s1/a-b-auto-7.png"
  /\ @path_join Sample.posix (sessionId opts) (specBaseName opts 7)
     = lit "s1/a--b-auto-7.png".
Proof. vm_compute. split; reflexivity. Qed.

(** ** The snippet *)

Lemma collapsed_replaceRuns b s :
  collapsedFrom b (replaceRunsFrom isSpace (lit " ") b s) = true.
Proof.
  revert b. induction s as [|c s IH]; intros b; simpl; [reflexivity|].
  destruct (isSpace c) eqn:Hc.
  - destruct b; [apply IH|].
    change (lit " " ++ ?r) with (32%N :: r). simpl. apply IH.
  - simpl. rewrite Hc. apply IH.
Qed.

Lemma collapsed_weaken b s : collapsedFrom b s = true -> collapsedFrom false s = true.
Proof.
  destruct s as [|c s]; simpl; [reflexivity|].
  destruct (isSpace c); [|auto].
  destruct b; simpl; [rewrite andb_false_r; discriminate | auto].
Qed.

Lemma collapsed_trimStart s :
  collapsedFrom false s = true -> collapsedFrom true (trimStart s) = true.
Proof.
  unfold trimStart. destruct s as [|c s]; simpl; [reflexivity|].
  destruct (isSpace c) eqn:Hc.
  - intros H. apply andb_prop in H as [_ H].
    destruct s as [|d s]; simpl in *; [reflexivity|].
    destruct (isSpace d) eqn:Hd; simpl.
    + rewrite andb_false_r in H. discriminate.
    + rewrite Hd. exact H.
  - simpl. rewrite Hc. auto.
Qed.

Lemma collapsed_prefix b p q :
  collapsedFrom b (p ++ q) = true -> collapsedFrom b p = true.
Proof.
  revert b. induction p as [|c p IH]; intros b; simpl; [reflexivity|].
  destruct (isSpace c).
  - intros H. apply andb_prop in H as [H1 H2]. rewrite H1. simpl. eauto.
  - eauto.
Qed.

Lemma collapsed_app b p q :
  collapsedFrom b p = true -> forallb (fun c => negb (isSpace c)) q = true ->
  collapsedFrom b (p ++ q) = true.
Proof.
  intros Hp Hq. revert b Hp. induction p as [|c p IH]; intros b; simpl.
  - intros _. revert b. induction q as [|d q IHq]; intros b; simpl; [reflexivity|].
    simpl in Hq. apply andb_prop in Hq as [Hd Hq].
    destruct (isSpace d); [discriminate | auto].
  - destruct (isSpace c).
    + intros H. apply andb_prop in H as [H1 H2]. rewrite H1. simpl. auto.
    + auto.
Qed.

Lemma dropWhile_suffix cls s : exists p, s = p ++ dropWhile cls s.
Proof. exists (takeWhile cls s). symmetry. apply takeWhile_dropWhile. Qed.

Lemma trimEnd_prefix s : exists q, s = trimEnd s ++ q.
Proof.
  unfold trimEnd, trimStart.
  destruct (dropWhile_suffix isSpace (rev s)) as [p Hp].
  exists (rev p). rewrite <- rev_app_distr, <- Hp, rev_involutive. reflexivity.
Qed.

Lemma collapsed_trim s :
  collapsedFrom false s = true -> collapsedFrom true (trim s) = true.
Proof.
  intros H. unfold trim.
  destruct (trimEnd_prefix (trimStart s)) as [q Hq].
  apply collapsed_prefix with (q := q). rewrite <- Hq.
  apply collapsed_trimStart, H.
Qed.

(** The cleaned text of [safeSnippet]. *)
Lemma clean_collapsed text :
  whitespaceCollapsed (trim (replaceRuns isSpace (lit " ") text)) = true.
Proof. apply collapsed_trim, collapsed_replaceRuns. Qed.

Lemma safeSnippet_collapsed text : whitespaceCollapsed (safeSnippet text) = true.
Proof.
  unfold safeSnippet, safeSnippetN.
  destruct (_ <=? _)%nat; [apply clean_collapsed|].
  apply collapsed_app; [|reflexivity].
  pose proof (clean_collapsed text) as H. unfold whitespaceCollapsed in *.
  rewrite <- (take_drop 240 (trim _)) in H.
  eapply collapsed_prefix, H.
Qed.

Lemma safeSnippet_cases text :
  let clean := trim (replaceRuns isSpace (lit " ") text) in
  (length clean <= 240)%nat /\ safeSnippet text = clean
  \/ (240 < length clean)%nat /\ safeSnippet text = take 240 clean ++ ellipsis
     /\ length (safeSnippet text) = 243%nat.
Proof.
  intros clean. unfold safeSnippet, safeSnippetN. fold clean.
  destruct (Nat.leb_spec (length clean) 240) as [H|H].
  - left. auto.
  - right. split; [exact H|]. split; [reflexivity|].
    rewrite length_app, length_take.
    change (length ellipsis) with 3%nat. lia.
Qed.

Section ToolError.
Context {platform : Platform}.

(** C8, as the code has it: on an explicit tool error the call logs one
    debug line and returns [null]; the snippet in it is the error text
    with white space collapsed and trimmed, whole when that has at most
    240 characters, and otherwise cut to its first 240 characters with the
    truncation mark appended, 243 characters in all. *)
Theorem toolError_logged_snippet (res : jsvalue) (expectedPath : jsstring) (s : State) :
  isTrue (prop "isError" res) = true ->
  let msg := default [] (asString (prop "text" (index0 (prop "content" res)))) in
  let clean := trim (replaceRuns isSpace (lit " ") msg) in
  screenshotFromResponse res expectedPath s
  = (Ok None,
     set_logs (logs s ++ [(Debug, lit "[playwright-mcp] screenshot tool error: "
                                  ++ safeSnippet msg)]) s)
  /\ whitespaceCollapsed (safeSnippet msg) = true
  /\ take 240 (safeSnippet msg) = take 240 clean
  /\ ((length clean <= 240)%nat /\ safeSnippet msg = clean
      \/ (240 < length clean)%nat /\ safeSnippet msg = take 240 clean ++ ellipsis
         /\ length (safeSnippet msg) = 243%nat).
Proof.
  intros Herr msg clean. split; [|split; [|split]].
  - unfold screenshotFromResponse. rewrite Herr. reflexivity.
  - apply safeSnippet_collapsed.
  - destruct (safeSnippet_cases msg) as [[_ ->]|(Hlen & -> & _)]; [reflexivity|].
    fold clean in Hlen |- *.
    rewrite take_app_le by (rewrite length_take; lia).
    rewrite take_take. reflexivity.
  - apply safeSnippet_cases.
Qed.

End ToolError.

Lemma toolError_logged_snippet_witness :
  exists l, logs (@screenshotFromResponse Sample.posix
                    (Sample.errorResponse (lit "boom   boom")) (lit "/x.png")
                    (newManager Sample.cfg Sample.world)).2 = [(Debug, l)]
            /\ drop 40 l = lit "boom boom".
Proof.
  destruct (@toolError_logged_snippet Sample.posix
              (Sample.errorResponse (lit "boom   boom")) (lit "/x.png")
              (newManager Sample.cfg Sample.world)) as [H _].
  - reflexivity.
  - rewrite H. eexists. split; [reflexivity|]. vm_compute. reflexivity.
Defined.

(** C8 as stated fails: a text of 241 characters gives a snippet of 243. *)
Lemma safeSnippet_longer_than_240 :
  length (replicate 241 97%N) = 241%nat
  /\ length (safeSnippet (replicate 241 97%N)) = 243%nat.
Proof. vm_compute. split; reflexivity. Qed.

(** ** The monad *)

Lemma bind_run {A B} (m : M A) (k : A -> M B) (s : State) :
  (m ≫= k) s
  = match m s with
    | (Ok a, s') => k a s'
    | (Throw e, s') => (Throw e, s')
    | (Stuck, s') => (Stuck, s')
    end.
Proof. reflexivity. Qed.

Lemma tryCatch_run {A} (m : M A) (h : error -> M A) (s : State) :
  tryCatch m h s
  = match m s with
    | (Throw e, s') => h e s'
    | r => r
    end.
Proof. reflexivity. Qed.

(** Unfolds the operations of the monad, here and in a hypothesis. *)
Ltac munfold :=
  unfold mbind, M_bind, mret, M_ret, tryCatch, throw, stuck, gets, modify.
Tactic Notation "munfold" "in" hyp(H) :=
  unfold mbind, M_bind, mret, M_ret, tryCatch, throw, stuck, gets, modify in H.

(** Evaluation that leaves string literals and messages folded. *)
Ltac mcbn := cbn -[lit String_of_error String_of_int safeSnippet].
Tactic Notation "mcbn" "in" hyp(H) :=
  cbn -[lit String_of_error String_of_int safeSnippet] in H.

(** ** Port allocator *)

Lemma scanPorts_find h n p s :
  scanPorts h p n s
  = (Ok (find (fun q => negb (listening s h q)) (seqZ p (Z.of_nat n))), s).
Proof.
  revert p. induction n as [|n IH]; intros p.
  - reflexivity.
  - rewrite seqZ_cons by lia.
    replace (Z.pred (Z.of_nat (S n))) with (Z.of_nat n) by lia.
    cbn [scanPorts find]. rewrite bind_run. unfold tryPort, gets.
    destruct (negb (listening s h p)); [reflexivity|].
    rewrite IH. replace (Z.succ p) with (p + 1) by lia. reflexivity.
Qed.

Lemma seqZ_to_nat m len : seqZ m (Z.of_nat (Z.to_nat len)) = seqZ m len.
Proof. unfold seqZ. rewrite Nat2Z.id. reflexivity. Qed.

Lemma findAvailablePort_run h start end_ s :
  findAvailablePort h start end_ s
  = (match firstFreePort s h start end_ with
     | Some p => Ok p
     | None => Throw (PortExhausted start end_)
     end, s).
Proof.
  unfold findAvailablePort, firstFreePort.
  rewrite bind_run, scanPorts_find, seqZ_to_nat.
  destruct (find _ _); reflexivity.
Qed.

Lemma find_seqZ_Some (f : Z -> bool) n m p :
  find f (seqZ m (Z.of_nat n)) = Some p ->
  m <= p < m + Z.of_nat n /\ f p = true /\ forall q, m <= q < p -> f q = false.
Proof.
  revert m. induction n as [|n IH]; intros m.
  - discriminate.
  - rewrite seqZ_cons by lia.
    replace (Z.pred (Z.of_nat (S n))) with (Z.of_nat n) by lia.
    cbn [find]. destruct (f m) eqn:Hm.
    + intros [= <-]. repeat split; [lia | lia | exact Hm | intros q Hq; lia].
    + intros H. apply IH in H as (Hr & Hp & Hq).
      repeat split; [lia | lia | exact Hp |].
      intros q Hrange. destruct (Z.eq_dec q m) as [->|Hne]; [exact Hm|].
      apply Hq. lia.
Qed.


(** What [firstFreePort] finds: a free port of the range with only taken
    ports before it; and nothing exactly when every port is taken. *)
Lemma firstFreePort_Some s h start end_ p :
  firstFreePort s h start end_ = Some p ->
  start <= p <= end_ /\ listening s h p = false
  /\ forall q, start <= q < p -> listening s h q = true.
Proof.
  unfold firstFreePort. rewrite <- seqZ_to_nat. intros H.
  apply find_seqZ_Some in H as (Hr & Hp & Hq).
  repeat split; [lia | lia | |].
  - destruct (listening s h p); [discriminate | reflexivity].
  - intros q Hrange. specialize (Hq q Hrange).
    destruct (listening s h q); [reflexivity | discriminate].
Qed.



(** ** Negotiation *)

Lemma endsWith_app (p suffix : jsstring) : endsWith (p ++ suffix) suffix = true.
Proof.
  unfold endsWith, jseqb. rewrite length_app.
  replace (length p + length suffix - length suffix)%nat with (length p) by lia.
  rewrite drop_app_length. rewrite bool_decide_eq_true_2 by reflexivity.
  simpl. apply Nat.leb_le. lia.
Qed.

Lemma ssePathname_mcp (p : jsstring) : ssePathname (p ++ lit "/mcp") = p ++ lit "/sse".
Proof.
  unfold ssePathname. rewrite endsWith_app, length_app.
  change (length (lit "/mcp")) with 4%nat.
  replace (length p + 4 - 4)%nat with (length p) by lia.
  rewrite take_app_length. reflexivity.
Qed.

Lemma ssePathname_other (p : jsstring) :
  endsWith p (lit "/mcp") = false -> ssePathname p = p ++ lit "/sse".
Proof. intros H. unfold ssePathname. rewrite H. reflexivity. Qed.

Lemma lookup_insert_new {A} (l : list A) (x y : A) :
  <[length l := y]> (l ++ [x]) !! length l = Some y.
Proof. apply list_lookup_insert_eq. rewrite length_app. simpl. lia. Qed.

Section Negotiation.
Context {platform : Platform}.

(** C9: the primary transport is tried first; when it connects, nothing
    else is tried and nothing is logged.  When it fails, one warning is
    logged and the SSE transport is tried at the URL whose path has the
    trailing [/mcp] replaced by [/sse]; the negotiation succeeds when that
    connects and throws when it does not, after exactly these two
    attempts. *)
Theorem createClient_primary_then_sse (server : PlaywrightServerInfo) (u : URL)
  (s : State) :
  URL_parse (url server) = Some u ->
  let fallback := mkURL (url_origin u) (ssePathname (url_pathname u)) (url_search u) in
  let c := length (clients s) in
  let r := createClient server s in
  (forall p, ssePathname (p ++ lit "/mcp") = p ++ lit "/sse")
  /\ if connect_ok (env s) StreamableHTTP u then
       r.1 = Ok c
       /\ connects r.2 = connects s ++ [(StreamableHTTP, u)]
       /\ logs r.2 = logs s
       /\ clients r.2 !! c = Some (mkClient (Some (StreamableHTTP, u)) false)
     else
       connects r.2 = connects s ++ [(StreamableHTTP, u); (SSE, fallback)]
       /\ (exists msg, logs r.2 = logs s ++ [(Warn, msg)])
       /\ if connect_ok (env s) SSE fallback then
            r.1 = Ok c
            /\ clients r.2 !! c = Some (mkClient (Some (SSE, fallback)) false)
          else exists e, r.1 = Throw e.
Proof.
  intros Hu fallback c r. split; [exact ssePathname_mcp|].
  destruct r as [out s'] eqn:Hr. subst r.
  unfold createClient, newClient, newURL, connect, logger in Hr.
  rewrite Hu in Hr. munfold in Hr. cbn -[lit ssePathname String_of_error] in Hr.
  fold fallback c in Hr.
  destruct (connect_ok (env s) StreamableHTTP u) eqn:Hprimary;
    cbn -[lit ssePathname String_of_error] in Hr.
  - injection Hr as <- <-. cbn. repeat split. apply lookup_insert_new.
  - fold fallback in Hr. destruct (connect_ok (env s) SSE fallback) eqn:Hsse;
      cbn -[lit ssePathname String_of_error] in Hr;
      injection Hr as <- <-; cbn -[lit ssePathname String_of_error];
      rewrite <- app_assoc.
    + repeat split; [eexists; reflexivity|]. apply lookup_insert_new.
    + repeat split; eexists; reflexivity.
Qed.

End Negotiation.

Lemma createClient_primary_then_sse_witness :
  let s := newManager Sample.cfg
             (Sample.withConnect (fun t _ => match t with SSE => true | _ => false end)
                Sample.world) in
  let server := {| port := 5000; url := lit "http://127.0.0.1:5000/mcp";
                   userDataDir := lit "/u"; outputDir := lit "/o" |} in
  (@createClient Sample.posix server s).1 = Ok 0%nat
  /\ connects (@createClient Sample.posix server s).2
     = [(StreamableHTTP, mkURL (lit "http://127.0.0.1:5000") (lit "/mcp") []);
        (SSE, mkURL (lit "http://127.0.0.1:5000") (lit "/sse") [])].
Proof.
  intros s server.
  destruct (@createClient_primary_then_sse Sample.posix server
              (mkURL (lit "http://127.0.0.1:5000") (lit "/mcp") []) s)
    as (_ & H).
  - vm_compute. reflexivity.
  - change (connect_ok (env s) StreamableHTTP
              (mkURL (lit "http://127.0.0.1:5000") (lit "/mcp") [])) with false in H.
    cbv beta iota in H. destruct H as (Hc & _ & H).
    change (connect_ok (env s) SSE _) with true in H. cbv beta iota in H.
    destruct H as [H _]. split; [exact H|]. rewrite Hc. vm_compute. reflexivity.
Defined.

(** ** Links in a text *)










(** ** The response of the tool *)

Lemma firstAccessible_find candidates s :
  firstAccessible candidates s = (Ok (find (onDisk s) candidates), s).
Proof.
  induction candidates as [|c rest IH]; [reflexivity|].
  cbn [firstAccessible find]. unfold access, onDisk. munfold.
  destruct (fs (env s) !! c) as [node|] eqn:Hc; cbn; [reflexivity | exact IH].
Qed.

Section Response.
Context {platform : Platform}.


End Response.

(** The examples of the specification: a link to a file on disk, and an
    image block whose payload is written to the expected path. *)
Example screenshotFromResponse_link :
  let s := newManager Sample.cfg Sample.world in
  let s' := set_env (set_fs (<[lit "/tmp/out/a.png" := File []]> ∅) (env s)) s in
  (@screenshotFromResponse Sample.posix Sample.linkResponse (lit "/out/e.png") s').1
  = Ok (Some {| savedPath := Some (lit "/tmp/out/a.png"); mimeType := None |}).
Proof. vm_compute. reflexivity. Qed.

Example screenshotFromResponse_image :
  let s := newManager Sample.cfg Sample.world in
  let r := @screenshotFromResponse Sample.posix Sample.imageResponse (lit "/out/e.png") s in
  r.1 = Ok (Some {| savedPath := Some (lit "/out/e.png");
                    mimeType := Some (lit "image/png") |})
  /\ fs (env r.2) !! lit "/out/e.png" = Some (File [104; 105]%N).
Proof. vm_compute. split; reflexivity. Qed.


(** ** Frames *)

Lemma outer_refl s : outer s s.
Proof. repeat split. Qed.

Lemma outer_trans s1 s2 s3 : outer s1 s2 -> outer s2 s3 -> outer s1 s3.
Proof.
  intros (?&?&?&?&?&?) (?&?&?&?&?&?). repeat split; congruence.
Qed.

Lemma outer_agree s s' : outer s s' -> agree s s'.
Proof. intros (?&?&?&?&?&?). repeat split; assumption. Qed.

Lemma maintains_ret {A} P (a : A) : maintains P (mret a).
Proof. intros s H. exact H. Qed.

Lemma maintains_bind {A B} P (m : M A) (k : A -> M B) :
  maintains P m -> (forall a, maintains P (k a)) -> maintains P (m ≫= k).
Proof.
  intros Hm Hk s H. rewrite bind_run. specialize (Hm s H).
  destruct (m s) as [[a|e|] s1]; simpl in *; [apply Hk; exact Hm | exact Hm | exact Hm].
Qed.

Lemma maintains_tryCatch {A} P (m : M A) (h : error -> M A) :
  maintains P m -> (forall e, maintains P (h e)) -> maintains P (tryCatch m h).
Proof.
  intros Hm Hh s H. rewrite tryCatch_run. specialize (Hm s H).
  destruct (m s) as [[a|e|] s1]; simpl in *; [exact Hm | apply Hh; exact Hm | exact Hm].
Qed.

Lemma maintains_modify P (f : State -> State) :
  (forall s, P s -> P (f s)) -> maintains P (modify f).
Proof. intros Hf s H. apply Hf, H. Qed.

Lemma framed_maintains {A} (m : M A) s0 : framed m -> maintains (outer s0) m.
Proof. intros Hm s H. eapply outer_trans; [exact H | apply Hm]. Qed.

Lemma maintains_framed {A} (m : M A) : (forall s0, maintains (outer s0) m) -> framed m.
Proof. intros H s. apply H, outer_refl. Qed.

Lemma framed_ret {A} (a : A) : framed (mret a).
Proof. intros s. apply outer_refl. Qed.

Lemma framed_bind {A B} (m : M A) (k : A -> M B) :
  framed m -> (forall a, framed (k a)) -> framed (m ≫= k).
Proof.
  intros Hm Hk. apply maintains_framed. intros s0.
  apply maintains_bind; [|intros a]; apply framed_maintains; auto.
Qed.

Lemma framed_tryCatch {A} (m : M A) (h : error -> M A) :
  framed m -> (forall e, framed (h e)) -> framed (tryCatch m h).
Proof.
  intros Hm Hh. apply maintains_framed. intros s0.
  apply maintains_tryCatch; [|intros e]; apply framed_maintains; auto.
Qed.

(** A computation whose every step is unfolded changes the state by the
    setters only; the fields of [outer] are then read off. *)
Ltac framed_prim :=
  let s := fresh "s" in
  intros s; munfold;
  repeat match goal with
         | |- context [match ?x with _ => _ end] => destruct x
         end;
  repeat split.

Lemma framed_throw {A} e : framed (@throw A e).
Proof. framed_prim. Qed.
Lemma framed_gets {A} (f : State -> A) : framed (gets f).
Proof. framed_prim. Qed.
Lemma framed_logger l msg : framed (logger l msg).
Proof. unfold logger. framed_prim. Qed.
Lemma framed_Date_now : framed Date_now.
Proof. unfold Date_now. framed_prim. Qed.
Lemma framed_sleep ms : framed (sleep ms).
Proof. unfold sleep. framed_prim. Qed.
Lemma framed_mkdir p : framed (mkdir p).
Proof. unfold mkdir. framed_prim. Qed.
Lemma framed_writeFile p data : framed (writeFile p data).
Proof. unfold writeFile. framed_prim. Qed.
Lemma framed_access p : framed (access p).
Proof. unfold access. framed_prim. Qed.
Lemma framed_tryPort h p : framed (tryPort h p).
Proof. unfold tryPort. framed_prim. Qed.
Lemma framed_canConnect h p : framed (canConnect h p).
Proof. unfold canConnect. framed_prim. Qed.
Lemma framed_setKillTimer pid : framed (setKillTimer pid).
Proof. unfold setKillTimer. framed_prim. Qed.
Lemma framed_newClient : framed newClient.
Proof. unfold newClient. framed_prim. Qed.
Lemma framed_connect c t u : framed (connect c t u).
Proof. unfold connect. framed_prim. Qed.
Lemma framed_closeClient c : framed (closeClient c).
Proof. unfold closeClient. framed_prim. Qed.
Lemma framed_callTool c name filename : framed (callTool c name filename).
Proof. unfold callTool. framed_prim. Qed.

Create HintDb framed.
#[export] Hint Resolve framed_ret framed_throw framed_gets framed_logger
  framed_Date_now framed_sleep framed_mkdir framed_writeFile framed_access
  framed_tryPort framed_canConnect framed_setKillTimer framed_newClient
  framed_connect framed_closeClient framed_callTool : framed.

(** Splits a goal on a compound computation into goals on its parts. *)
Ltac framed_step :=
  match goal with
  | |- framed (_ ≫= _) => apply framed_bind; [|intros ?]
  | |- framed (tryCatch _ _) => apply framed_tryCatch; [|intros ?]
  | |- framed (match ?x with _ => _ end) => destruct x
  | |- framed _ => solve [auto with framed]
  end.

Lemma framed_scanPorts h p n : framed (scanPorts h p n).
Proof. intros s. rewrite scanPorts_find. apply outer_refl. Qed.

Lemma framed_findAvailablePort h start end_ : framed (findAvailablePort h start end_).
Proof. intros s. rewrite findAvailablePort_run. apply outer_refl. Qed.

Lemma framed_pollPort h p deadline fuel : framed (pollPort h p deadline fuel).
Proof.
  induction fuel as [|fuel IH]; cbn [pollPort]; [framed_prim|].
  repeat framed_step.
Qed.

Lemma framed_waitForPortOpen h p timeoutMs : framed (waitForPortOpen h p timeoutMs).
Proof. unfold waitForPortOpen. repeat framed_step. apply framed_pollPort. Qed.

Lemma framed_firstAccessible candidates : framed (firstAccessible candidates).
Proof. intros s. rewrite firstAccessible_find. apply outer_refl. Qed.

Lemma framed_findChromeExecutable : framed findChromeExecutable.
Proof. unfold findChromeExecutable. repeat framed_step. apply framed_firstAccessible. Qed.

#[export] Hint Resolve framed_scanPorts framed_findAvailablePort framed_pollPort
  framed_waitForPortOpen framed_firstAccessible framed_findChromeExecutable : framed.

(** ** Inversion of a run *)

Lemma bind_Ok {A B} (m : M A) (k : A -> M B) s b s' :
  (m ≫= k) s = (Ok b, s') ->
  exists a s1, m s = (Ok a, s1) /\ k a s1 = (Ok b, s').
Proof.
  rewrite bind_run. destruct (m s) as [[a|e|] s1]; [eauto | discriminate | discriminate].
Qed.

Lemma bind_Throw {A B} (m : M A) (k : A -> M B) s e s' :
  (m ≫= k) s = (Throw e, s') ->
  m s = (Throw e, s') \/ exists a s1, m s = (Ok a, s1) /\ k a s1 = (Throw e, s').
Proof.
  rewrite bind_run. destruct (m s) as [[a|e1|] s1]; [eauto | | discriminate].
  intros [= <- <-]. left. reflexivity.
Qed.

Lemma tryCatch_Ok {A} (m : M A) (h : error -> M A) s a s' :
  tryCatch m h s = (Ok a, s') ->
  m s = (Ok a, s') \/ exists e s1, m s = (Throw e, s1) /\ h e s1 = (Ok a, s').
Proof.
  rewrite tryCatch_run. destruct (m s) as [[a1|e|] s1]; [| eauto | discriminate].
  intros [= <- <-]. left. reflexivity.
Qed.

(** ** Totality *)

Lemma total_ret {A} (a : A) : total (mret a).
Proof. intros s. discriminate. Qed.

Lemma total_bind {A B} (m : M A) (k : A -> M B) :
  total m -> (forall a, total (k a)) -> total (m ≫= k).
Proof.
  intros Hm Hk s. rewrite bind_run. specialize (Hm s).
  destruct (m s) as [[a|e|] s1]; simpl in *; [apply Hk | discriminate | congruence].
Qed.

Lemma total_tryCatch {A} (m : M A) (h : error -> M A) :
  total m -> (forall e, total (h e)) -> total (tryCatch m h).
Proof.
  intros Hm Hh s. rewrite tryCatch_run. specialize (Hm s).
  destruct (m s) as [[a|e|] s1]; simpl in *; [discriminate | apply Hh | congruence].
Qed.

Ltac total_prim :=
  let s := fresh "s" in
  intros s; munfold;
  repeat match goal with
         | |- context [match ?x with _ => _ end] => destruct x
         end;
  discriminate.

Lemma total_throw {A} e : total (@throw A e).
Proof. total_prim. Qed.
Lemma total_gets {A} (f : State -> A) : total (gets f).
Proof. total_prim. Qed.
Lemma total_modify f : total (modify f).
Proof. total_prim. Qed.
Lemma total_logger l msg : total (logger l msg).
Proof. unfold logger. total_prim. Qed.
Lemma total_Date_now : total Date_now.
Proof. unfold Date_now. total_prim. Qed.
Lemma total_sleep ms : total (sleep ms).
Proof. unfold sleep. total_prim. Qed.
Lemma total_mkdir p : total (mkdir p).
Proof. unfold mkdir. total_prim. Qed.
Lemma total_writeFile p data : total (writeFile p data).
Proof. unfold writeFile. total_prim. Qed.
Lemma total_access p : total (access p).
Proof. unfold access. total_prim. Qed.
Lemma total_tryPort h p : total (tryPort h p).
Proof. unfold tryPort. total_prim. Qed.
Lemma total_canConnect h p : total (canConnect h p).
Proof. unfold canConnect. total_prim. Qed.
Lemma total_spawn args h p : total (spawn args h p).
Proof. unfold spawn. total_prim. Qed.
Lemma total_kill pid signal : total (kill pid signal).
Proof. unfold kill. total_prim. Qed.
Lemma total_setKillTimer pid : total (setKillTimer pid).
Proof. unfold setKillTimer. total_prim. Qed.
Lemma total_newClient : total newClient.
Proof. unfold newClient. total_prim. Qed.
Lemma total_connect c t u : total (connect c t u).
Proof. unfold connect. total_prim. Qed.
Lemma total_closeClient c : total (closeClient c).
Proof. unfold closeClient. total_prim. Qed.
Lemma total_callTool c name filename : total (callTool c name filename).
Proof. unfold callTool. total_prim. Qed.
Lemma total_newStartPromise : total newStartPromise.
Proof. unfold newStartPromise. total_prim. Qed.
Lemma total_settleStart p r : total (settleStart p r).
Proof. unfold settleStart. total_prim. Qed.
Lemma total_newClientPromise server : total (newClientPromise server).
Proof. unfold newClientPromise. total_prim. Qed.

Create HintDb total.
#[export] Hint Resolve total_ret total_throw total_gets total_modify total_logger
  total_Date_now total_sleep total_mkdir total_writeFile total_access
  total_tryPort total_canConnect total_spawn total_kill total_setKillTimer
  total_newClient total_connect total_closeClient total_callTool
  total_newStartPromise total_settleStart total_newClientPromise : total.

Ltac total_step :=
  match goal with
  | |- total (_ ≫= _) => apply total_bind; [|intros ?]
  | |- total (tryCatch _ _) => apply total_tryCatch; [|intros ?]
  | |- total (match ?x with _ => _ end) => destruct x
  | |- total _ => solve [auto with total]
  end.

Lemma total_scanPorts h p n : total (scanPorts h p n).
Proof. intros s. rewrite scanPorts_find. discriminate. Qed.

Lemma total_findAvailablePort h start end_ : total (findAvailablePort h start end_).
Proof.
  intros s. rewrite findAvailablePort_run. destruct (firstFreePort _ _ _ _); discriminate.
Qed.

Lemma total_firstAccessible candidates : total (firstAccessible candidates).
Proof. intros s. rewrite firstAccessible_find. discriminate. Qed.

Lemma total_findChromeExecutable : total findChromeExecutable.
Proof. unfold findChromeExecutable. repeat total_step. apply total_firstAccessible. Qed.

(** The readiness wait ends: with one more round of fuel than quarter
    seconds left to the deadline, the loop returns or throws. *)
Lemma pollPort_total h p deadline fuel s :
  deadline - now (env s) <= 250 * Z.of_nat fuel ->
  (pollPort h p deadline (S fuel) s).1 <> Stuck.
Proof.
  revert s. induction fuel as [|fuel IH]; intros s Hfuel.
  - cbn [pollPort]. unfold Date_now. munfold.
    destruct (Z.ltb_spec (now (env s)) deadline); [lia | discriminate].
  - remember (S fuel) as n eqn:Hn. cbn [pollPort]. subst n.
    unfold Date_now, canConnect, sleep. munfold.
    destruct (Z.ltb_spec (now (env s)) deadline); [|discriminate].
    destruct (listening s h p); [discriminate|].
    apply IH. cbn. lia.
Qed.

Lemma total_waitForPortOpen h p timeoutMs : total (waitForPortOpen h p timeoutMs).
Proof.
  intros s. unfold waitForPortOpen. rewrite bind_run. unfold Date_now, gets.
  replace (Z.to_nat (timeoutMs / 250) + 2)%nat
    with (S (Z.to_nat (timeoutMs / 250) + 1)) by lia.
  apply pollPort_total.
  destruct (Z.le_gt_cases timeoutMs 0) as [Hle|Hgt]; [lia|].
  pose proof (Z.mul_succ_div_gt timeoutMs 250 ltac:(lia)).
  assert (0 <= timeoutMs / 250) by (apply Z.div_pos; lia). lia.
Qed.

#[export] Hint Resolve total_scanPorts total_findAvailablePort total_firstAccessible
  total_findChromeExecutable total_waitForPortOpen : total.

Lemma total_startServer : total startServer.
Proof. unfold startServer. repeat total_step. Qed.

(** ** [startServer] *)

Lemma agree_refl s : agree s s.
Proof. repeat split. Qed.

Lemma agree_trans s1 s2 s3 : agree s1 s2 -> agree s2 s3 -> agree s1 s3.
Proof. intros (?&?&?&?&?) (?&?&?&?&?). repeat split; congruence. Qed.

Lemma framed_agree {A} (m : M A) s0 : framed m -> maintains (agree s0) m.
Proof.
  intros Hm s H. eapply agree_trans; [exact H|]. apply outer_agree, Hm.
Qed.

Lemma agree_spawn args h p s0 : maintains (agree s0) (spawn args h p).
Proof. intros s H. exact H. Qed.

Lemma agree_kill pid signal s0 : maintains (agree s0) (kill pid signal).
Proof.
  intros s H. unfold kill. destruct (children s !! pid) as [c|]; [|exact H].
  destruct (exited c); exact H.
Qed.

Ltac agree_step :=
  match goal with
  | |- maintains _ (_ ≫= _) => apply maintains_bind; [|intros ?]
  | |- maintains _ (tryCatch _ _) => apply maintains_tryCatch; [|intros ?]
  | |- maintains _ (mret _) => apply maintains_ret
  | |- maintains _ (spawn _ _ _) => apply agree_spawn
  | |- maintains _ (kill _ _) => apply agree_kill
  | |- maintains _ (match ?x with _ => _ end) => destruct x
  | |- maintains (agree _) _ => apply framed_agree; solve [auto with framed]
  end.

(** [startServer] leaves the manager's fields and the promises alone. *)
Lemma startServer_agree s : agree s (startServer s).2.
Proof.
  assert (H : maintains (agree s) startServer).
  { unfold startServer. repeat agree_step. }
  apply H, agree_refl.
Qed.

Lemma framed_run {A} (m : M A) s o s' : framed m -> m s = (o, s') -> outer s s'.
Proof. intros Hm H. specialize (Hm s). rewrite H in Hm. exact Hm. Qed.

(** A start that succeeds has spawned one process, which is the child of
    the result, was not killed and has not exited. *)
Lemma startServer_Ok s st s' :
  startServer s = (Ok st, s') ->
  child st = length (children s)
  /\ exists c, children s' = children s ++ [c]
               /\ killed c = false /\ exitCode c = None /\ exited c = false.
Proof.
  unfold startServer. intros H.
  apply bind_Ok in H as (cfg & s0 & H0 & H). injection H0 as <- <-.
  apply bind_Ok in H as ([] & s1 & H1 & H).
  apply bind_Ok in H as ([] & s2 & H2 & H).
  apply bind_Ok in H as (p & s3 & H3 & H).
  apply bind_Ok in H as (exe & s4 & H4 & H).
  apply bind_Ok in H as ([] & s5 & H5 & H).
  apply bind_Ok in H as (pid & s6 & H6 & H).
  apply bind_Ok in H as ([] & s7 & H7 & H).
  injection H as <- <-. cbn [child].
  assert (Hc5 : children s5 = children s).
  { apply (framed_run _ _ _ _ (framed_mkdir _)) in H1.
    apply (framed_run _ _ _ _ (framed_mkdir _)) in H2.
    apply (framed_run _ _ _ _ (framed_findAvailablePort _ _ _)) in H3.
    assert (F4 : outer s3 s4).
    { destruct (executable_path (config s)).
      - injection H4 as <- <-. apply outer_refl.
      - apply (framed_run _ _ _ _ framed_findChromeExecutable) in H4. exact H4. }
    apply (framed_run _ _ _ _ (framed_logger _ _)) in H5.
    destruct H1 as (_&_&_&_&_&E1), H2 as (_&_&_&_&_&E2), H3 as (_&_&_&_&_&E3),
      F4 as (_&_&_&_&_&E4), H5 as (_&_&_&_&_&E5).
    congruence. }
  unfold spawn in H6. injection H6 as <- <-.
  apply tryCatch_Ok in H7 as [H7|(e & s8 & _ & H7)].
  - apply (framed_run _ _ _ _ (framed_waitForPortOpen _ _ _)) in H7.
    destruct H7 as (_&_&_&_&_&E7). cbn in E7.
    rewrite Hc5. split; [reflexivity|].
    eexists. rewrite E7, Hc5. split; [reflexivity|]. repeat split.
  - exfalso. apply bind_Ok in H7 as ([] & s9 & _ & H7).
    apply bind_Ok in H7 as ([] & s10 & _ & H7).
    apply bind_Ok in H7 as ([] & s11 & _ & H7). discriminate.
Qed.

(** ** [ensureServer] *)

(** A start attempt caches a pending promise, runs [startServer], and
    settles the promise with its result; a failure first drops the cached
    promises. *)
Lemma startAttempt_run s :
  startAttempt s
  = let p := length (startPromises s) in
    match startServer (pendingStart s) with
    | (Ok st, s1) =>
        (Ok (info st), set_startPromises (<[p := Fulfilled st]> (startPromises s1)) s1)
    | (Throw e, s1) =>
        (Throw e,
         set_startPromises (<[p := Rejected e]> (startPromises s1)) (cleared s1))
    | (Stuck, s1) => (Stuck, s1)
    end.
Proof.
  unfold startAttempt, newStartPromise, settleStart, awaitStart. munfold.
  fold (pendingStart s).
  pose proof (startServer_agree (pendingStart s)) as (_ & _ & _ & Hps & _).
  destruct (startServer (pendingStart s)) as [[st|e|] s1]; cbn in Hps |- *.
  - rewrite Hps, lookup_insert_new. reflexivity.
  - rewrite Hps, lookup_insert_new. reflexivity.
  - reflexivity.
Qed.

Lemma ensureServer_idle s :
  startPromise s = None -> ensureServer s = startAttempt s.
Proof.
  intros H. unfold ensureServer, reuseServer. munfold. rewrite H. reflexivity.
Qed.

(** The cached start is returned when its process is live. *)
Lemma ensureServer_live s p st c :
  startPromise s = Some p ->
  startPromises s !! p = Some (Fulfilled st) ->
  children s !! child st = Some c ->
  live c = true ->
  ensureServer s = (Ok (info st), s).
Proof.
  intros Hp Hst Hc Hlive. unfold ensureServer, reuseServer, awaitStart, getChild.
  munfold. rewrite Hp, Hst, Hc. unfold live in Hlive. rewrite Hlive. reflexivity.
Qed.

(** When its process was killed or has an exit code, the cached promises
    are dropped and a start is attempted. *)
Lemma ensureServer_dead s p st c :
  startPromise s = Some p ->
  startPromises s !! p = Some (Fulfilled st) ->
  children s !! child st = Some c ->
  live c = false ->
  ensureServer s = startAttempt (cleared s).
Proof.
  intros Hp Hst Hc Hlive. unfold ensureServer, reuseServer, awaitStart, getChild.
  munfold. rewrite Hp, Hst, Hc. unfold live in Hlive. rewrite Hlive. reflexivity.
Qed.

Lemma startAttempt_settled s :
  (forall p, clientPromise s = Some p -> (p < length (clientPromises s))%nat) ->
  (startAttempt s).1 <> Stuck /\ cacheSettled (startAttempt s).2.
Proof.
  intros I2. rewrite startAttempt_run.
  pose proof (startServer_agree (pendingStart s)) as (_ & Hsp & Hcp & Hsps & Hcps).
  pose proof (total_startServer (pendingStart s)) as Htotal.
  destruct (startServer (pendingStart s)) as [[st|e|] s1] eqn:Hrun;
    cbn in Hsp, Hcp, Hsps, Hcps, Htotal |- *.
  - split; [discriminate|]. split; cbn.
    + intros p Hp. rewrite Hsp in Hp. injection Hp as <-.
      exists st. rewrite Hsps, lookup_insert_new. split; [reflexivity|].
      apply startServer_Ok in Hrun as (Hchild & c & Hc & _).
      rewrite Hc, Hchild, length_app. cbn. lia.
    + intros p Hp. rewrite Hcps. rewrite Hcp in Hp. auto.
  - split; [discriminate|]. split; cbn; discriminate.
  - congruence.
Qed.

Lemma ensureServer_settled s :
  cacheSettled s -> (ensureServer s).1 <> Stuck /\ cacheSettled (ensureServer s).2.
Proof.
  intros [I1 I2]. destruct (startPromise s) as [p|] eqn:Hp.
  - destruct (I1 p eq_refl) as (st & Hst & Hlt).
    destruct (lookup_lt_is_Some_2 _ _ Hlt) as [c Hc].
    destruct (live c) eqn:Hlive.
    + rewrite (ensureServer_live s p st c) by assumption.
      split; [discriminate|]. split; [|exact I2].
      intros p' Hp'. cbn in Hp'. rewrite Hp in Hp'. injection Hp' as <-. eauto.
    + rewrite (ensureServer_dead s p st c) by assumption.
      apply startAttempt_settled. cbn. discriminate.
  - rewrite ensureServer_idle by exact Hp. apply startAttempt_settled, I2.
Qed.

(** What [ensureServer] returns is the info of the cached start, whose
    process is live then: cached before and still live, or just spawned. *)
Lemma ensureServer_returns_live s i s' :
  cacheSettled s ->
  ensureServer s = (Ok i, s') ->
  exists p st c,
    startPromise s' = Some p /\ startPromises s' !! p = Some (Fulfilled st)
    /\ i = info st /\ children s' !! child st = Some c /\ live c = true.
Proof.
  intros [I1 _] Hrun.
  assert (Hstart : forall s0, startAttempt s0 = (Ok i, s') ->
            exists p st c,
              startPromise s' = Some p /\ startPromises s' !! p = Some (Fulfilled st)
              /\ i = info st /\ children s' !! child st = Some c /\ live c = true).
  { intros s0. rewrite startAttempt_run.
    pose proof (startServer_agree (pendingStart s0)) as (_ & Hsp & _ & Hsps & _).
    destruct (startServer (pendingStart s0)) as [[st|e|] s1] eqn:Hstart;
      [|discriminate|discriminate].
    intros [= <- <-]. cbn in Hsp, Hsps.
    apply startServer_Ok in Hstart as (Hchild & c & Hch & Hk & He & _).
    cbn in Hchild, Hch.
    exists (length (startPromises s0)), st, c. cbn.
    split; [exact Hsp|]. split; [rewrite Hsps; apply lookup_insert_new|].
    split; [reflexivity|]. split.
    - rewrite Hch, Hchild. apply list_lookup_middle. reflexivity.
    - unfold live. rewrite Hk, He. reflexivity. }
  destruct (startPromise s) as [p|] eqn:Hp.
  - destruct (I1 p eq_refl) as (st & Hst & Hlt).
    destruct (lookup_lt_is_Some_2 _ _ Hlt) as [c Hc].
    destruct (live c) eqn:Hlive.
    + rewrite (ensureServer_live s p st c) in Hrun by assumption.
      injection Hrun as <- <-. exists p, st, c. auto.
    + rewrite (ensureServer_dead s p st c) in Hrun by assumption. eauto.
  - rewrite ensureServer_idle in Hrun by exact Hp. eauto.
Qed.

(** ** The cache invariant *)

Lemma similar_refl s : similar s s.
Proof. repeat split. Qed.

Lemma similar_trans s1 s2 s3 : similar s1 s2 -> similar s2 s3 -> similar s1 s3.
Proof. intros (?&?&?&?&?&?) (?&?&?&?&?&?). repeat split; congruence. Qed.

Lemma outer_similar s s' : outer s s' -> similar s s'.
Proof. intros (?&?&?&?&?&?). repeat split; congruence. Qed.

Lemma cacheSettled_similar s s' : similar s s' -> cacheSettled s -> cacheSettled s'.
Proof.
  intros (_ & Hsp & Hcp & Hsps & Hcps & Hch) [I1 I2]. split.
  - intros p Hp. rewrite Hsp in Hp. destruct (I1 p Hp) as (st & Hst & Hlt).
    exists st. rewrite Hsps, Hch. auto.
  - intros p Hp. rewrite Hcp in Hp. rewrite Hcps. auto.
Qed.

Lemma framed_similar {A} (m : M A) s0 : framed m -> maintains (similar s0) m.
Proof.
  intros Hm s H. eapply similar_trans; [exact H|]. apply outer_similar, Hm.
Qed.

Lemma similar_settled {A} (m : M A) :
  (forall s0, maintains (similar s0) m) -> maintains cacheSettled m.
Proof.
  intros Hm s H. eapply cacheSettled_similar; [|exact H]. apply Hm, similar_refl.
Qed.

Lemma similar_kill pid signal s0 : maintains (similar s0) (kill pid signal).
Proof.
  intros s H. unfold kill. destruct (children s !! pid) as [c|]; [|exact H].
  destruct (exited c); [exact H|].
  eapply similar_trans; [exact H|]. repeat split. cbn. apply length_insert.
Qed.

Lemma framed_awaitStart p : framed (awaitStart p).
Proof. unfold awaitStart. framed_prim. Qed.

Lemma framed_getChild pid : framed (getChild pid).
Proof. unfold getChild. framed_prim. Qed.

#[export] Hint Resolve framed_awaitStart framed_getChild : framed.

Lemma total_awaitStart_settled s p st :
  startPromises s !! p = Some (Fulfilled st) -> awaitStart p s = (Ok st, s).
Proof. intros H. unfold awaitStart. rewrite H. reflexivity. Qed.

Section Cache.
Context {platform : Platform}.

Lemma framed_newURL u : framed (newURL u).
Proof. unfold newURL. destruct (URL_parse u); auto with framed. Qed.

Lemma total_newURL u : total (newURL u).
Proof. unfold newURL. destruct (URL_parse u); auto with total. Qed.

Lemma framed_createClient server : framed (createClient server).
Proof.
  unfold createClient. pose proof framed_newURL.
  repeat framed_step.
Qed.

Lemma total_createClient server : total (createClient server).
Proof.
  unfold createClient. pose proof total_newURL.
  repeat total_step.
Qed.

(** Settling a client promise changes that promise only, and leaves it
    settled. *)
Lemma settleClient_run p s :
  exists s', settleClient p s = (Ok tt, s') /\ similar s s'
    /\ children s' = children s
    /\ ((p < length (clientPromises s))%nat ->
        exists r, clientPromises s' !! p = Some r
                  /\ forall server, r <> Pending server).
Proof.
  unfold settleClient.
  destruct (clientPromises s !! p) as [[server|c|e]|] eqn:Hp.
  - pose proof (framed_createClient server s) as (Hcfg & Hsp & Hcp & Hsps & Hcps & Hch).
    pose proof (total_createClient server s) as Htotal.
    apply lookup_lt_Some in Hp as Hlt.
    assert (Hsettle : forall r s1, outer s s1 -> (forall sv, r <> Pending sv) ->
              let s' := set_clientPromises (<[p := r]> (clientPromises s1)) s1 in
              similar s s' /\ children s' = children s
              /\ ((p < length (clientPromises s))%nat ->
                  exists r', clientPromises s' !! p = Some r'
                             /\ forall sv, r' <> Pending sv)).
    { intros r s1 (E1 & E2 & E3 & E4 & E5 & E6) Hr. cbn.
      split; [|split; [exact E6|]].
      - repeat split; cbn; try assumption; [|congruence].
        rewrite length_insert. congruence.
      - intros _. exists r. split; [|exact Hr].
        apply list_lookup_insert_eq. congruence. }
    destruct (createClient server s) as [[c|e|] s1]; cbn in Htotal; [| |congruence].
    + eexists. split; [reflexivity|]. apply Hsettle; [repeat split; assumption | discriminate].
    + eexists. split; [reflexivity|]. apply Hsettle; [repeat split; assumption | discriminate].
  - exists s. split; [reflexivity|]. split; [apply similar_refl|]. split; [reflexivity|].
    intros _. eexists. split; [exact Hp | discriminate].
  - exists s. split; [reflexivity|]. split; [apply similar_refl|]. split; [reflexivity|].
    intros _. eexists. split; [exact Hp | discriminate].
  - exists s. split; [reflexivity|]. split; [apply similar_refl|]. split; [reflexivity|].
    intros Hlt. apply lookup_ge_None in Hp. lia.
Qed.

Lemma similar_awaitClient p s0 : maintains (similar s0) (awaitClient p).
Proof.
  intros s H. unfold awaitClient. rewrite bind_run.
  destruct (settleClient_run p s) as (s' & -> & Hsim & _).
  eapply similar_trans; [exact H|]. eapply similar_trans; [exact Hsim|].
  unfold readClientPromise. destruct (clientPromises s' !! p) as [[?|?|?]|]; apply similar_refl.
Qed.

Lemma awaitClient_not_stuck p s :
  (p < length (clientPromises s))%nat -> (awaitClient p s).1 <> Stuck.
Proof.
  intros Hlt. unfold awaitClient. rewrite bind_run.
  destruct (settleClient_run p s) as (s' & -> & _ & _ & Hr).
  destruct (Hr Hlt) as (r & Hp & Hnp). unfold readClientPromise. rewrite Hp.
  destruct r as [server|c|e]; [exfalso; eapply Hnp; reflexivity | discriminate | discriminate].
Qed.

Lemma ensureClient_settled server : maintains cacheSettled (ensureClient server).
Proof.
  intros s [I1 I2]. unfold ensureClient, newClientPromise. munfold.
  destruct (clientPromise s) as [p|] eqn:Hp; cbn.
  - split; [exact I1|]. intros p' Hp'. rewrite Hp in Hp'. auto.
  - split; [exact I1|]. cbn. intros p' [= <-]. rewrite length_app. cbn. lia.
Qed.

Lemma framed_screenshotFromResponse res expectedPath :
  framed (screenshotFromResponse res expectedPath).
Proof.
  unfold screenshotFromResponse.
  destruct (isTrue _); [repeat framed_step|].
  destruct (_ ≫= nonEmpty); repeat framed_step.
Qed.

Lemma framed_produceArtifact client rel expectedPath :
  framed (produceArtifact client rel expectedPath).
Proof.
  unfold produceArtifact. pose proof framed_screenshotFromResponse.
  repeat framed_step.
Qed.

Lemma takeScreenshot_settled opts : maintains cacheSettled (takeScreenshot opts).
Proof.
  unfold takeScreenshot.
  apply maintains_bind; [intros s H; apply ensureServer_settled, H | intros server].
  apply maintains_bind; [apply ensureClient_settled | intros cp].
  apply maintains_bind; [apply similar_settled; intros; apply similar_awaitClient | intros client].
  apply similar_settled. intros s0.
  pose proof framed_produceArtifact.
  repeat (apply maintains_bind; [|intros ?]); apply framed_similar; auto with framed.
Qed.

Lemma stop_similar s0 : maintains (similar s0) stop.
Proof.
  unfold stop, stopClient, stopServer.
  repeat match goal with
         | |- maintains _ (_ ≫= _) => apply maintains_bind; [|intros ?]
         | |- maintains _ (tryCatch _ _) => apply maintains_tryCatch; [|intros ?]
         | |- maintains _ (mret _) => apply maintains_ret
         | |- maintains _ (awaitClient _) => apply similar_awaitClient
         | |- maintains _ (kill _ _) => apply similar_kill
         | |- maintains _ (match ?x with _ => _ end) => destruct x
         | |- maintains (similar _) _ => apply framed_similar; solve [auto with framed]
         end.
Qed.

Lemma childExits_settled pid code signal :
  maintains cacheSettled (childExits pid code signal).
Proof.
  intros s H. unfold childExits.
  destruct (children s !! pid) as [c|]; [|exact H].
  destruct (exited c); [exact H|].
  unfold logger. munfold. cbn. split; cbn; discriminate.
Qed.

Lemma timerFires_similar i s0 : maintains (similar s0) (timerFires i).
Proof.
  unfold timerFires.
  repeat match goal with
         | |- maintains _ (_ ≫= _) => apply maintains_bind; [|intros ?]
         | |- maintains _ (tryCatch _ _) => apply maintains_tryCatch; [|intros ?]
         | |- maintains _ (mret _) => apply maintains_ret
         | |- maintains _ (kill _ _) => apply similar_kill
         | |- maintains _ (modify (set_timers _)) =>
             apply maintains_modify; intros ? ?; assumption
         | |- maintains _ (match ?x with _ => _ end) => destruct x
         | |- maintains (similar _) _ => apply framed_similar; solve [auto with framed]
         end.
Qed.

Lemma handle_settled ev : maintains cacheSettled (handle ev).
Proof.
  destruct ev as [| |opts|pid code signal|toStderr text|i|f]; cbn [handle].
  - apply maintains_bind; [intros s H; apply ensureServer_settled, H | intros ?].
    apply maintains_ret.
  - apply similar_settled, stop_similar.
  - apply maintains_bind; [apply takeScreenshot_settled | intros ?]. apply maintains_ret.
  - apply childExits_settled.
  - apply similar_settled. intros s0. unfold childWrites.
    destruct (isEmpty _); [apply maintains_ret|].
    destruct toStderr; apply framed_similar; auto with framed.
  - apply similar_settled, timerFires_similar.
  - intros s H. exact H.
Qed.

Lemma run_settled evs s : cacheSettled s -> cacheSettled (run evs s).
Proof.
  revert s. induction evs as [|ev evs IH]; intros s H; [exact H|].
  cbn. apply IH. apply handle_settled, H.
Qed.

(** In every state a manager can be in, the cache is settled. *)
Lemma reachable_settled s : reachable s -> cacheSettled s.
Proof.
  intros (cfg & e & evs & ->). apply run_settled.
  split; cbn; discriminate.
Qed.

End Cache.

(** ** Failure of a start *)

Lemma startAttempt_Throw s e s' :
  startAttempt s = (Throw e, s') ->
  startPromise s' = None /\ clientPromise s' = None
  /\ exists s1, startServer (pendingStart s) = (Throw e, s1).
Proof.
  rewrite startAttempt_run.
  destruct (startServer (pendingStart s)) as [[st|e1|] s1]; cbn; [discriminate | | discriminate].
  intros [= <- <-]. cbn. eauto.
Qed.

Section StartFailure.
Context {platform : Platform}.

(** C5: when [ensureServer] throws, the error is that of the start
    attempt it made, the cached start and client promises are dropped
    before the error leaves, and the next call makes a start attempt of
    its own: it runs [startServer] again, and returns or throws (it is
    never stuck) with the result of that run. *)
Theorem ensureServer_failure_clears (s : State) (e : error) (s' : State) :
  reachable s ->
  ensureServer s = (Throw e, s') ->
  (exists s0 s1, (s0 = s \/ s0 = cleared s)
                 /\ startServer (pendingStart s0) = (Throw e, s1))
  /\ startPromise s' = None /\ clientPromise s' = None
  /\ ensureServer s' = startAttempt s'
  /\ (ensureServer s').1 <> Stuck
  /\ (forall st s1, startServer (pendingStart s') = (Ok st, s1) ->
        exists s2, ensureServer s' = (Ok (info st), s2))
  /\ (forall e1 s1, startServer (pendingStart s') = (Throw e1, s1) ->
        exists s2, ensureServer s' = (Throw e1, s2)).
Proof.
  intros Hreach Hrun. apply reachable_settled in Hreach as Hset.
  assert (Hset' : cacheSettled s').
  { pose proof (ensureServer_settled s Hset) as [_ H]. rewrite Hrun in H. exact H. }
  destruct Hset as [I1 _].
  assert (Hatt : exists s0, (s0 = s \/ s0 = cleared s)
                            /\ startAttempt s0 = (Throw e, s')).
  { destruct (startPromise s) as [p|] eqn:Hp.
    - destruct (I1 p eq_refl) as (st & Hst & Hlt).
      destruct (lookup_lt_is_Some_2 _ _ Hlt) as [c Hc].
      destruct (live c) eqn:Hlive.
      + rewrite (ensureServer_live s p st c) in Hrun by assumption. discriminate.
      + rewrite (ensureServer_dead s p st c) in Hrun by assumption. eauto.
    - rewrite ensureServer_idle in Hrun by exact Hp. eauto. }
  destruct Hatt as (s0 & Hs0 & Hatt).
  apply startAttempt_Throw in Hatt as (Hsp & Hcp & s1 & Hstart).
  split; [eauto|]. split; [exact Hsp|]. split; [exact Hcp|].
  split; [apply ensureServer_idle, Hsp|].
  split; [apply ensureServer_settled, Hset'|].
  rewrite (ensureServer_idle s' Hsp), startAttempt_run.
  split; intros r s2 Hr; rewrite Hr; eauto.
Qed.

End StartFailure.

Lemma ensureServer_failure_clears_witness :
  let s := newManager Sample.cfg (Sample.withBound [5000; 5001; 5002] Sample.world) in
  startPromise (ensureServer s).2 = None /\ clientPromise (ensureServer s).2 = None.
Proof.
  intros s.
  destruct (@ensureServer_failure_clears Sample.posix s (PortExhausted 5000 5002)
              (ensureServer s).2) as (_ & H1 & H2 & _).
  - exists Sample.cfg, (Sample.withBound [5000; 5001; 5002] Sample.world), [].
    reflexivity.
  - rewrite (surjective_pairing (ensureServer s)) at 1. f_equal.
  - split; assumption.
Defined.

(** ** [stop] *)

Section Stop.
Context {platform : Platform}.

Lemma awaitClient_run p s :
  (p < length (clientPromises s))%nat ->
  exists r s', awaitClient p s = (r, s') /\ r <> Stuck /\ similar s s'
               /\ children s' = children s.
Proof.
  intros Hlt. unfold awaitClient. rewrite bind_run.
  destruct (settleClient_run p s) as (s' & -> & Hsim & Hch & Hr).
  destruct (Hr Hlt) as (r & Hp & Hnp). unfold readClientPromise. rewrite Hp.
  destruct r as [server|c|e].
  - exfalso. eapply Hnp. reflexivity.
  - eexists _, _. split; [reflexivity|]. split; [discriminate|]. auto.
  - eexists _, _. split; [reflexivity|]. split; [discriminate|]. auto.
Qed.

Lemma stopClient_run s :
  cacheSettled s ->
  exists s', stopClient s = (Ok tt, s') /\ similar s s' /\ children s' = children s.
Proof.
  intros [_ I2]. unfold stopClient. rewrite bind_run. unfold gets at 1.
  destruct (clientPromise s) as [p|] eqn:Hp.
  - destruct (awaitClient_run p s (I2 p eq_refl)) as (r & s1 & Hrun & Hr & Hsim & Hch).
    rewrite bind_run, tryCatch_run, bind_run, Hrun.
    destruct r as [c|e|]; [| |congruence].
    + cbn [mret M_ret]. rewrite tryCatch_run.
      pose proof (framed_closeClient c s1) as Hout.
      pose proof (total_closeClient c s1) as Htot.
      destruct (closeClient c s1) as [[[]|e|] s2] eqn:Hclose; cbn in Hout, Htot.
      * eexists. split; [reflexivity|]. split.
        -- eapply similar_trans; [exact Hsim | apply outer_similar, Hout].
        -- destruct Hout as (_&_&_&_&_&E). congruence.
      * unfold closeClient, modify in Hclose. discriminate.
      * congruence.
    + cbn. eexists. split; [reflexivity|]. auto.
  - cbn. eexists. split; [reflexivity|]. split; [apply similar_refl | reflexivity].
Qed.


End Stop.


(** ** [takeScreenshot] *)

Section Screenshot.
Context {platform : Platform}.

Lemma total_screenshotFromResponse res expectedPath :
  total (screenshotFromResponse res expectedPath).
Proof.
  unfold screenshotFromResponse.
  destruct (isTrue _); [repeat total_step|].
  destruct (_ ≫= nonEmpty); repeat total_step.
Qed.

(** The [try] statement always returns: what its block throws becomes a
    debug line and [null]. *)
Lemma produceArtifact_run client rel expectedPath s :
  let block := res ← callTool client (lit "browser_take_screenshot") rel;
               screenshotFromResponse res expectedPath in
  match block s with
  | (Ok r, s1) => produceArtifact client rel expectedPath s = (Ok r, s1)
  | (Throw e, s1) =>
      produceArtifact client rel expectedPath s
      = (Ok None,
         set_logs (logs s1 ++ [(Debug, lit "[playwright-mcp] screenshot failed: "
                                       ++ String_of_error e)]) s1)
  | (Stuck, _) => False
  end.
Proof.
  intros block. unfold produceArtifact. rewrite tryCatch_run. fold block.
  assert (Htotal : total block).
  { unfold block. pose proof total_screenshotFromResponse. repeat total_step. }
  specialize (Htotal s).
  destruct (block s) as [[r|e|] s1]; cbn in Htotal; [reflexivity | reflexivity | congruence].
Qed.

Lemma produceArtifact_Ok client rel expectedPath s :
  exists r s1, produceArtifact client rel expectedPath s = (Ok r, s1).
Proof.
  pose proof (produceArtifact_run client rel expectedPath s) as H. cbv zeta in H.
  match type of H with
  | match ?t with _ => _ end => destruct t as [[r|e|] s1]
  end; [eauto | eauto | contradiction].
Qed.

Lemma ensureClient_Ok server s : exists cp s1, ensureClient server s = (Ok cp, s1).
Proof.
  unfold ensureClient, newClientPromise. munfold.
  destruct (clientPromise s); eauto.
Qed.

(** C1, as the code has it: an error leaves [takeScreenshot] only from
    [ensureServer], from the negotiation of the client, or from the
    creation of the directory of the artifact, which comes before the
    [try]; the tool call and all that follows it always return, and
    what they throw is logged and becomes [null]. *)
Theorem takeScreenshot_throws_in_setup_only (opts : ScreenshotOpts) (s : State)
  (e : error) (s' : State) :
  takeScreenshot opts s = (Throw e, s') ->
  (ensureServer s = (Throw e, s')
   \/ exists server s1 cp s2,
        ensureServer s = (Ok server, s1)
        /\ ensureClient server s1 = (Ok cp, s2)
        /\ (awaitClient cp s2 = (Throw e, s')
            \/ exists client s3,
                 awaitClient cp s2 = (Ok client, s3)
                 /\ mkdir (path_dirname
                             (path_join (outputDir server)
                                (relFileNameOf opts (now (env s3))))) s3
                    = (Throw e, s')))
  /\ (forall client rel expectedPath s0,
        exists r s1, produceArtifact client rel expectedPath s0 = (Ok r, s1))
  /\ (forall client rel expectedPath s0 e0 s1,
        (res ← callTool client (lit "browser_take_screenshot") rel;
         screenshotFromResponse res expectedPath) s0 = (Throw e0, s1) ->
        produceArtifact client rel expectedPath s0
        = (Ok None,
           set_logs (logs s1 ++ [(Debug, lit "[playwright-mcp] screenshot failed: "
                                         ++ String_of_error e0)]) s1)).
Proof.
  intros Hrun. split; [|split].
  - unfold takeScreenshot in Hrun.
    apply bind_Throw in Hrun as [Hrun|(server & s1 & Hserver & Hrun)]; [left; exact Hrun|].
    right. exists server, s1.
    apply bind_Throw in Hrun as [Hrun|(cp & s2 & Hcp & Hrun)].
    { destruct (ensureClient_Ok server s1) as (cp & s2 & Hcp). congruence. }
    exists cp, s2. split; [exact Hserver|]. split; [exact Hcp|].
    apply bind_Throw in Hrun as [Hrun|(client & s3 & Hclient & Hrun)]; [left; exact Hrun|].
    right. exists client, s3. split; [exact Hclient|].
    apply bind_Throw in Hrun as [Hrun|(t & s4 & Ht & Hrun)]; [discriminate|].
    injection Ht as <- <-.
    apply bind_Throw in Hrun as [Hrun|([] & s5 & _ & Hrun)]; [exact Hrun|].
    destruct (produceArtifact_Ok client (relFileNameOf opts (now (env s3)))
                (path_join (outputDir server) (relFileNameOf opts (now (env s3)))) s5)
      as (r & s6 & Hok).
    congruence.
  - intros. apply produceArtifact_Ok.
  - intros client rel expectedPath s0 e0 s1 Hblock.
    pose proof (produceArtifact_run client rel expectedPath s0) as H.
    cbv zeta in H. rewrite Hblock in H. exact H.
Qed.

End Screenshot.

(** C1 as stated fails: the server starts and the client connects, and
    [takeScreenshot] throws, because the directory of the artifact cannot
    be created. *)
Lemma takeScreenshot_throws_on_mkdir :
  let s := newManager Sample.cfg
             (Sample.withReadonly [lit "/data/shared/out/s1"] Sample.world) in
  let server := {| port := 5000; url := lit "http://127.0.0.1:5000/mcp";
                   userDataDir := lit "/data/shared/profile";
                   outputDir := lit "/data/shared/out" |} in
  (ensureServer s).1 = Ok server
  /\ (ensureClient server (ensureServer s).2).1 = Ok 0%nat
  /\ (@awaitClient Sample.posix 0
        (ensureClient server (ensureServer s).2).2).1 = Ok 0%nat
  /\ (@takeScreenshot Sample.posix Sample.opts s).1
     = Throw (SystemError (lit "EACCES") (lit "/data/shared/out/s1")).
Proof. vm_compute. repeat split. Qed.

Lemma takeScreenshot_throws_in_setup_only_witness :
  let s := newManager Sample.cfg
             (Sample.withReadonly [lit "/data/shared/out/s1"] Sample.world) in
  exists r s1, @produceArtifact Sample.posix 0 (lit "a.png") (lit "/o/a.png") s = (Ok r, s1).
Proof.
  intros s.
  destruct (@takeScreenshot_throws_in_setup_only Sample.posix Sample.opts s
              (SystemError (lit "EACCES") (lit "/data/shared/out/s1"))
              (@takeScreenshot Sample.posix Sample.opts s).2) as (_ & H & _).
  - rewrite (surjective_pairing (takeScreenshot Sample.opts s)) at 1. f_equal.
  - apply H.
Defined.

(** ** Sharing of the client negotiation *)

Section SingleFlight.
Context {platform : Platform}.

(** While a negotiation is pending, every call of [ensureClient] returns
    its promise; no second negotiation is started. *)
Lemma ensureClient_single_flight server server' s :
  clientPromise s = None ->
  let p := length (clientPromises s) in
  let s1 := (ensureClient server s).2 in
  ensureClient server s = (Ok p, s1)
  /\ clientPromises s1 = clientPromises s ++ [Pending server]
  /\ connects s1 = connects s
  /\ ensureClient server' s1 = (Ok p, s1).
Proof.
  intros H. unfold ensureClient, newClientPromise. munfold. rewrite H. cbn.
  repeat split.
Qed.

(** All who await the promise get the one outcome: awaiting it again
    changes nothing. *)
Lemma awaitClient_again p s r s' :
  awaitClient p s = (r, s') -> r <> Stuck -> awaitClient p s' = (r, s').
Proof.
  unfold awaitClient. rewrite !bind_run.
  destruct (settleClient_run p s) as (s1 & -> & _ & _ & _).
  unfold readClientPromise.
  destruct (clientPromises s1 !! p) as [[server|c|e]|] eqn:Hp;
    intros [= <- <-] Hr; try congruence.
  - unfold settleClient. rewrite Hp. cbn. rewrite Hp. reflexivity.
  - unfold settleClient. rewrite Hp. cbn. rewrite Hp. reflexivity.
Qed.

(** A rejected promise stays cached: [ensureClient] returns it, and
    awaiting it throws its error again, with no attempt to connect. *)
Lemma ensureClient_replays_rejection server s p e :
  clientPromise s = Some p ->
  clientPromises s !! p = Some (Rejected e) ->
  ensureClient server s = (Ok p, s) /\ awaitClient p s = (Throw e, s).
Proof.
  intros Hp He. split.
  - unfold ensureClient. munfold. rewrite Hp. reflexivity.
  - unfold awaitClient, settleClient, readClientPromise. rewrite bind_run, He. cbn.
    rewrite He. reflexivity.
Qed.

End SingleFlight.

(** C2, the failing input: both transports refuse, the negotiation fails;
    then the server accepts connections, and [ensureClient] still returns
    the rejected promise, and [takeScreenshot] throws the old error, and
    no connection is attempted. *)
Theorem ensureClient_replays_failure :
  let s0 := newManager Sample.cfg (Sample.withConnect (fun _ _ => false) Sample.world) in
  let server := {| port := 5000; url := lit "http://127.0.0.1:5000/mcp";
                   userDataDir := lit "/data/shared/profile";
                   outputDir := lit "/data/shared/out" |} in
  let s1 := (@takeScreenshot Sample.posix Sample.opts s0).2 in
  let s2 := @after Sample.posix (EnvChanges (Sample.withConnect (fun _ _ => true))) s1 in
  (@takeScreenshot Sample.posix Sample.opts s0).1 = Throw (Error (lit "connect failed"))
  /\ clientPromise s1 = Some 0%nat
  /\ clientPromises s1 !! 0%nat = Some (Rejected (Error (lit "connect failed")))
  /\ length (connects s1) = 2%nat
  /\ (forall t u, connect_ok (env s2) t u = true)
  /\ ensureClient server s2 = (Ok 0%nat, s2)
  /\ (@awaitClient Sample.posix 0 s2).1 = Throw (Error (lit "connect failed"))
  /\ (@takeScreenshot Sample.posix Sample.opts s2).1 = Throw (Error (lit "connect failed"))
  /\ connects (@takeScreenshot Sample.posix Sample.opts s2).2 = connects s1.
Proof.
  intros s0 server s1 s2.
  assert (Hp : clientPromise s2 = Some 0%nat) by (vm_compute; reflexivity).
  assert (He : clientPromises s2 !! 0%nat = Some (Rejected (Error (lit "connect failed"))))
    by (vm_compute; reflexivity).
  destruct (@ensureClient_replays_rejection Sample.posix server s2 0%nat _ Hp He)
    as [H1 H2].
  split; [vm_compute; reflexivity|].
  split; [vm_compute; reflexivity|].
  split; [vm_compute; reflexivity|].
  split; [vm_compute; reflexivity|].
  split; [intros t u; reflexivity|].
  split; [exact H1|].
  split; [rewrite H2; reflexivity|].
  split; vm_compute; reflexivity.
Qed.

(** ** Processes of one manager *)

(** C3, the failing input: the manager starts a server, stops it (the
    process is sent SIGTERM), starts again while the first process is
    still there, and then the first process exits.  Its exit handler
    drops the cached start of the second process, so the next
    [ensureServer] spawns a third: the second and the third process are
    both live. *)
Theorem ensureServer_two_live_processes :
  let s := @run Sample.posix
             [CallEnsureServer; CallStop; CallEnsureServer;
              ChildExits 0 None (Some (lit "SIGTERM")); CallEnsureServer]
             (newManager Sample.cfg Sample.world) in
  map live (children s) = [false; true; true]
  /\ map exited (children s) = [true; false; false]
  /\ map listen_port (children s) = [5000; 5001; 5000]
  /\ liveCount s = 2%nat.
Proof. vm_compute. repeat split. Qed.

(** ** A killed process stays killed *)

Lemma killedAt_children pid s s' :
  children s' = children s -> killedAt pid s -> killedAt pid s'.
Proof. intros E (c & Hc & Hk). exists c. rewrite E. auto. Qed.

Lemma framed_killedAt {A} (m : M A) pid : framed m -> maintains (killedAt pid) m.
Proof.
  intros Hm s H. destruct (Hm s) as (_&_&_&_&_&E). eapply killedAt_children; eauto.
Qed.

Lemma killedAt_kill pid pid' signal : maintains (killedAt pid) (kill pid' signal).
Proof.
  intros s (c & Hc & Hk). unfold kill.
  destruct (children s !! pid') as [c'|] eqn:Hc'; [|exists c; auto].
  destruct (exited c'); [exists c; auto|]. unfold killedAt. cbn.
  destruct (decide (pid' = pid)) as [->|Hne].
  - eexists. rewrite list_lookup_insert_eq by (eapply lookup_lt_Some; eauto).
    split; reflexivity.
  - exists c. rewrite list_lookup_insert_ne by exact Hne. auto.
Qed.

Lemma killedAt_spawn pid args h p : maintains (killedAt pid) (spawn args h p).
Proof.
  intros s (c & Hc & Hk). exists c. cbn. split; [|exact Hk].
  apply lookup_app_l_Some, Hc.
Qed.

Lemma killedAt_modify pid f :
  (forall s, children (f s) = children s) -> maintains (killedAt pid) (modify f).
Proof. intros Hf. apply maintains_modify. intros s. apply killedAt_children, Hf. Qed.

Lemma killedAt_newStartPromise pid : maintains (killedAt pid) newStartPromise.
Proof. intros s H. exact H. Qed.

Lemma killedAt_settleStart pid p r : maintains (killedAt pid) (settleStart p r).
Proof. intros s H. exact H. Qed.

Lemma killedAt_newClientPromise pid server :
  maintains (killedAt pid) (newClientPromise server).
Proof. intros s H. exact H. Qed.

Lemma killedAt_childExits pid pid' code signal :
  maintains (killedAt pid) (childExits pid' code signal).
Proof.
  intros s (c & Hc & Hk). unfold childExits.
  destruct (children s !! pid') as [c'|] eqn:Hc'; [|exists c; auto].
  destruct (exited c'); [exists c; auto|].
  unfold logger. munfold. unfold killedAt. cbn.
  destruct (decide (pid' = pid)) as [->|Hne].
  - eexists. rewrite list_lookup_insert_eq by (eapply lookup_lt_Some; eauto).
    split; [reflexivity|]. cbn. congruence.
  - exists c. rewrite list_lookup_insert_ne by exact Hne. auto.
Qed.

Create HintDb killed.
#[export] Hint Resolve killedAt_kill killedAt_spawn killedAt_newStartPromise
  killedAt_settleStart killedAt_newClientPromise killedAt_childExits : killed.
#[export] Hint Extern 2 (maintains (killedAt _) (modify _)) =>
  apply killedAt_modify; intros; reflexivity : killed.
#[export] Hint Extern 3 (maintains (killedAt _) _) =>
  apply framed_killedAt; solve [auto with framed] : killed.




Section KilledForever.
Context {platform : Platform}.





End KilledForever.

(** ** A stopped process is not returned again *)

Section StopThenStart.
Context {platform : Platform}.


End StopThenStart.


(** ** Runs of the code *)

(** A request in the environment where everything works: the server is
    started on the first port, the client connects over the primary
    transport, and the linked file is returned. *)
Example takeScreenshot_link :
  let r := @takeScreenshot Sample.posix Sample.opts (newManager Sample.cfg Sample.world) in
  r.1 = Ok (Some {| savedPath := Some (lit "/tmp/out/a.png"); mimeType := None |})
  /\ map listen_port (children r.2) = [5000]
  /\ map fst (connects r.2) = [StreamableHTTP]
  /\ now (env r.2) = 1700000000500.
Proof. vm_compute. repeat split. Qed.

(** An inline image is written under the output directory of the
    session, with the sanitized tool name in the file name. *)
Example takeScreenshot_image :
  let e := Sample.withTool {| tool_files := []; tool_result := inr Sample.imageResponse |}
             Sample.world in
  let r := @takeScreenshot Sample.posix Sample.opts (newManager Sample.cfg e) in
  let path := lit "/data/shared/out/s1/browser-click-auto-1700000000500.png" in
  r.1 = Ok (Some {| savedPath := Some path; mimeType := Some (lit "image/png") |})
  /\ fs (env r.2) !! path = Some (File [104; 105]%N).
Proof. vm_compute. split; reflexivity. Qed.

(** A tool call that is rejected gives [null] and a debug line. *)
Example takeScreenshot_tool_rejects :
  let e := Sample.withTool {| tool_files := []; tool_result := inl (Error (lit "boom")) |}
             Sample.world in
  let r := @takeScreenshot Sample.posix Sample.opts (newManager Sample.cfg e) in
  r.1 = Ok None
  /\ last (logs r.2)
     = Some (Debug, lit "[playwright-mcp] screenshot failed: Error: boom").
Proof. vm_compute. split; reflexivity. Qed.

(** A server that never opens its port: the start times out after the
    configured second, the process is sent SIGTERM and marked killed, the
    kill timer is set, and nothing stays cached. *)
Example ensureServer_timeout :
  let e := Sample.withBoot (fun _ => None) Sample.world in
  let r := ensureServer (newManager Sample.cfg e) in
  r.1 = Throw (StartTimeout (lit "127.0.0.1") 5000)
  /\ map killed (children r.2) = [true]
  /\ map signals (children r.2) = [[lit "SIGTERM"]]
  /\ timers r.2 = [(1700000003000, 0%nat)]
  /\ startPromise r.2 = None /\ clientPromise r.2 = None
  /\ startPromises r.2 = [Rejected (StartTimeout (lit "127.0.0.1") 5000)].
Proof. vm_compute. repeat split. Qed.

(** * Part III. Further properties of the code *)

(** ** The proxy-aware fetch *)

Lemma dropWhile_nil_iff cls s : dropWhile cls s = [] <-> forallb cls s = true.
Proof.
  induction s as [|c s IH]; simpl; [tauto|].
  destruct (cls c); simpl; [exact IH|]. split; discriminate.
Qed.

Lemma forallb_rev (cls : N -> bool) (s : list N) :
  forallb cls (rev s) = forallb cls s.
Proof.
  induction s as [|c s IH]; simpl; [reflexivity|].
  rewrite forallb_app, IH. simpl. rewrite andb_true_r. apply andb_comm.
Qed.

Lemma forallb_dropWhile cls s :
  forallb cls (dropWhile cls s) = forallb cls s.
Proof.
  induction s as [|c s IH]; simpl; [reflexivity|].
  destruct (cls c) eqn:Hc; simpl; [exact IH | rewrite Hc; reflexivity].
Qed.

(** [trim] leaves nothing exactly of the strings of white space. *)
Lemma trim_nil_iff s : trim s = [] <-> forallb isSpace s = true.
Proof.
  unfold trim, trimEnd, trimStart.
  rewrite <- (forallb_dropWhile isSpace s), <- (forallb_rev isSpace (dropWhile isSpace s)).
  rewrite <- dropWhile_nil_iff.
  split; intros H.
  - apply (f_equal (@rev N)) in H. rewrite rev_involutive in H. exact H.
  - rewrite H. reflexivity.
Qed.

Lemma forallb_false_elem (cls : N -> bool) (s : list N) :
  forallb cls s = false <-> exists c, c ∈ s /\ cls c = false.
Proof.
  induction s as [|c s IH]; simpl.
  - split; [discriminate|]. intros (c & Hc & _). inversion Hc.
  - destruct (cls c) eqn:Hc; simpl.
    + rewrite IH. split; intros (d & Hd & Hcls).
      * exists d. split; [right; exact Hd | exact Hcls].
      * exists d. split; [|exact Hcls].
        apply elem_of_cons in Hd as [->|Hd]; [congruence | exact Hd].
    + split; [|reflexivity]. intros _. exists c. split; [left | exact Hc].
Qed.

Lemma isSetVariable_iff v :
  isSetVariable v = true
  <-> exists x, v = Some x /\ exists c, c ∈ x /\ isSpace c = false.
Proof.
  destruct v as [x|]; simpl.
  - destruct (forallb isSpace x) eqn:Hall.
    + pose proof Hall as Hnil. apply trim_nil_iff in Hnil. rewrite Hnil. simpl.
      split; [discriminate|]. intros (y & [= <-] & H).
      apply forallb_false_elem in H. congruence.
    + destruct (trim x) eqn:Htrim.
      * apply trim_nil_iff in Htrim. congruence.
      * simpl. split; [|reflexivity]. intros _. exists x. split; [reflexivity|].
        apply forallb_false_elem, Hall.
  - split; [discriminate|]. intros (x & H & _). discriminate.
Qed.

Lemma envHasProxy_set (penv : string -> option jsstring) :
  envHasProxy penv = true
  <-> exists key x, key ∈ proxyKeys /\ penv key = Some x
                    /\ exists c, c ∈ x /\ isSpace c = false.
Proof.
  unfold envHasProxy. rewrite existsb_exists. split.
  - intros (key & Hin & Hset). apply isSetVariable_iff in Hset as (x & Hx & Hc).
    exists key, x. split; [apply list_elem_of_In, Hin | auto].
  - intros (key & x & Hin & Hx & Hc). exists key.
    split; [apply list_elem_of_In, Hin|]. apply isSetVariable_iff. eauto.
Qed.

(** X1: a proxy is taken to be configured exactly when one of the six
    variables holds a string with a character that is not white space;
    a variable that is unset, empty or blank does not count. *)
Theorem envHasProxy_iff (penv : string -> option jsstring) :
  envHasProxy penv = true
  <-> exists key x, key ∈ proxyKeys /\ penv key = Some x
                    /\ exists c, c ∈ x /\ isSpace c = false.
Proof. apply envHasProxy_set. Qed.

Lemma truthy_assoc_hasProp k o : truthy (assoc k o) = true -> hasProp k o = true.
Proof.
  induction o as [|[k' v] o IH]; simpl; [discriminate|].
  destruct (String.eqb k k'); simpl; auto.
Qed.

Lemma assoc_setProp_eq k v o : assoc k (setProp k v o) = v.
Proof.
  induction o as [|[k' v'] o IH]; simpl.
  - rewrite String.eqb_refl. reflexivity.
  - destruct (String.eqb k k') eqn:Hk; simpl; rewrite Hk; [reflexivity | exact IH].
Qed.

Lemma assoc_setProp_ne k k0 v o : k0 <> k -> assoc k0 (setProp k v o) = assoc k0 o.
Proof.
  intros Hne. induction o as [|[k' v'] o IH]; simpl.
  - apply String.eqb_neq in Hne. rewrite Hne. reflexivity.
  - destruct (String.eqb k k') eqn:Hk; simpl.
    + apply String.eqb_eq in Hk. subst k'.
      apply String.eqb_neq in Hne. rewrite Hne. reflexivity.
    + destruct (String.eqb k0 k'); [reflexivity | exact IH].
Qed.

(** X2: [fetchWithProxy] passes the input on, and every option but the
    dispatcher as it was given.  A dispatcher of the caller is kept, with
    the options untouched; without one, the request gets the proxy agent
    as its dispatcher when there is an agent, and is passed on as it is
    when there is none. *)
Theorem fetchWithProxy_dispatcher {I : Type} (proxyAgent : option jsvalue)
  (input : I) (init : option (list (string * jsvalue))) :
  let call := fetchWithProxy proxyAgent input init in
  call.1 = input
  /\ (forall k, k <> "dispatcher"%string -> optionOf k call.2 = optionOf k init)
  /\ if truthy (optionOf "dispatcher" init) then call.2 = init
     else match proxyAgent with
          | Some agent => optionOf "dispatcher" call.2 = agent
          | None => call.2 = init
          end.
Proof.
  unfold fetchWithProxy.
  destruct proxyAgent as [agent|]; [|cbn; destruct (truthy _); auto].
  destruct init as [o|]; cbn.
  - destruct (truthy (assoc "dispatcher" o)) eqn:Ht.
    + rewrite (truthy_assoc_hasProp _ _ Ht). cbn. auto.
    + rewrite andb_false_r. cbn. split; [reflexivity|]. split.
      * intros k Hk. apply assoc_setProp_ne, Hk.
      * apply assoc_setProp_eq.
  - split; [reflexivity|]. split; [|reflexivity].
    intros k Hk. apply String.eqb_neq in Hk. rewrite Hk. reflexivity.
Qed.

(** X3: when every one of the six variables is unset or holds white
    space only, no agent is made and the request is passed on unchanged. *)
Theorem fetchWithProxy_without_proxy {I : Type} (penv : string -> option jsstring)
  (agent : jsvalue) (input : I) (init : option (list (string * jsvalue))) :
  (forall key x, key ∈ proxyKeys -> penv key = Some x -> forallb isSpace x = true) ->
  fetchWithProxy (proxyAgentOf penv agent) input init = (input, init).
Proof.
  intros Hblank. unfold proxyAgentOf.
  destruct (envHasProxy penv) eqn:H; [|reflexivity].
  apply envHasProxy_set in H as (key & x & Hin & Hx & c & Hc & Hsp).
  specialize (Hblank key x Hin Hx).
  assert (forallb isSpace x = false) by (apply forallb_false_elem; eauto).
  congruence.
Qed.

Lemma fetchWithProxy_without_proxy_witness :
  let penv := fun key => if String.eqb key "HTTP_PROXY" then Some (lit "  ") else None in
  fetchWithProxy (proxyAgentOf penv (JObject [])) (lit "http://x/") None
  = (lit "http://x/", None).
Proof.
  intros penv. apply fetchWithProxy_without_proxy.
  intros key x Hin Hx. unfold penv in Hx.
  destruct (String.eqb key "HTTP_PROXY"); [|discriminate].
  injection Hx as <-. reflexivity.
Defined.

(** ** Launch arguments and paths *)

(** X4: the navigation timeout handed to the server is the configured
    timeout clamped to one second at least and one minute at most, and
    the port argument is the port given. *)
Theorem buildPlaywrightArgs_clamps (opts : PlaywrightArgs) :
  let t := opt_timeoutMs opts in
  exists t',
    buildPlaywrightArgs opts !! 17%nat = Some (lit "--timeout-navigation")
    /\ buildPlaywrightArgs opts !! 18%nat = Some (String_of_int t')
    /\ 1000 <= t' <= 60000
    /\ (t < 1000 -> t' = 1000) /\ (1000 <= t <= 60000 -> t' = t)
    /\ (60000 < t -> t' = 60000)
    /\ buildPlaywrightArgs opts !! 6%nat = Some (lit "--port")
    /\ buildPlaywrightArgs opts !! 7%nat = Some (String_of_int (opt_port opts)).
Proof.
  intros t. exists (Z.max 1000 (Z.min t 60000)).
  repeat split; try reflexivity; lia.
Qed.







(** ** Snippets and tool names *)

Lemma forallb_replaceRuns_space b s :
  forallb isSpace (replaceRunsFrom isSpace (lit " ") b s) = forallb isSpace s.
Proof.
  revert b. induction s as [|c s IH]; intros b; simpl; [reflexivity|].
  destruct (isSpace c) eqn:Hc; simpl.
  - destruct b; [apply IH|]. change (lit " " ++ ?r) with (32%N :: r). simpl. apply IH.
  - rewrite Hc. reflexivity.
Qed.

(** X6: the snippet is empty exactly when the text is empty or holds
    white space only. *)
Theorem safeSnippet_empty_iff (text : jsstring) :
  safeSnippet text = [] <-> forallb isSpace text = true.
Proof.
  rewrite <- (forallb_replaceRuns_space false text).
  fold (replaceRuns isSpace (lit " ") text). rewrite <- trim_nil_iff.
  unfold safeSnippet, safeSnippetN.
  destruct (_ <=? _)%nat eqn:Hlen; [reflexivity|].
  apply Nat.leb_gt in Hlen. split.
  - intros H. apply (f_equal (@length N)) in H. rewrite length_app in H.
    change (length ellipsis) with 3%nat in H. simpl in H. lia.
  - intros H. rewrite H in Hlen. simpl in Hlen. lia.
Qed.

Lemma dropWhile_id cls s : cls <$> head s <> Some true -> dropWhile cls s = s.
Proof. intros H. apply (dropWhile_run cls [] s); [reflexivity | exact H]. Qed.

Lemma collapsed_replaceRuns_id b s :
  collapsedFrom b s = true -> replaceRunsFrom isSpace (lit " ") b s = s.
Proof.
  revert b. induction s as [|c s IH]; intros b; simpl; [reflexivity|].
  destruct (isSpace c) eqn:Hc.
  - intros H. apply andb_prop in H as [H Hs]. apply andb_prop in H as [H32 Hb].
    destruct b; [discriminate|]. apply N.eqb_eq in H32. subst c.
    change (lit " " ++ ?r) with (32%N :: r). f_equal. apply IH, Hs.
  - intros H. f_equal. apply IH, H.
Qed.

Lemma collapsed_head s :
  collapsedFrom true s = true -> isSpace <$> head s <> Some true.
Proof.
  destruct s as [|c s]; simpl; [discriminate|].
  destruct (isSpace c); [|discriminate]. rewrite andb_false_r. discriminate.
Qed.

Lemma last_rev (s : list N) : last (rev s) = head s.
Proof. destruct s as [|c s]; [reflexivity|]. simpl. apply last_snoc. Qed.

Lemma head_rev (s : list N) : head (rev s) = last s.
Proof. rewrite <- (rev_involutive s) at 2. symmetry. apply last_rev. Qed.

Lemma trimEnd_id s : isSpace <$> last s <> Some true -> trimEnd s = s.
Proof.
  intros H. unfold trimEnd, trimStart. rewrite dropWhile_id, rev_involutive; [reflexivity|].
  rewrite head_rev. exact H.
Qed.

Lemma last_trimEnd s : isSpace <$> last (trimEnd s) <> Some true.
Proof.
  unfold trimEnd, trimStart. rewrite last_rev. apply dropWhile_head.
Qed.

(** A string with white space collapsed that does not end in white
    space is its own snippet text. *)
Lemma clean_fixed s :
  collapsedFrom true s = true -> isSpace <$> last s <> Some true ->
  trim (replaceRuns isSpace (lit " ") s) = s.
Proof.
  intros Hcol Hlast. unfold replaceRuns.
  rewrite collapsed_replaceRuns_id by (eapply collapsed_weaken, Hcol).
  unfold trim, trimStart. rewrite dropWhile_id by (apply collapsed_head, Hcol).
  apply trimEnd_id, Hlast.
Qed.

Lemma last_app_nonempty (p q : list N) : q <> [] -> last (p ++ q) = last q.
Proof.
  intros Hq. destruct q as [|c q] using rev_ind; [congruence|].
  rewrite app_assoc, !last_snoc. reflexivity.
Qed.

(** X7: a snippet is its own snippet: cleaning and cutting it again
    changes nothing. *)
Theorem safeSnippet_idempotent (text : jsstring) :
  safeSnippet (safeSnippet text) = safeSnippet text.
Proof.
  pose proof (safeSnippet_collapsed text) as Hcol. unfold whitespaceCollapsed in Hcol.
  assert (Hlast : isSpace <$> last (safeSnippet text) <> Some true).
  { destruct (safeSnippet_cases text) as [[_ ->]|(_ & -> & _)].
    - apply last_trimEnd.
    - rewrite last_app_nonempty by discriminate. discriminate. }
  unfold safeSnippet at 1. unfold safeSnippetN.
  rewrite (clean_fixed _ Hcol Hlast).
  destruct (safeSnippet_cases text) as [[Hlen Heq]|(Hlen & Heq & Hl)].
  - rewrite Heq. apply Nat.leb_le in Hlen. rewrite Hlen. reflexivity.
  - rewrite Hl. cbn [Nat.leb]. rewrite Heq.
    rewrite take_app_le by (rewrite length_take; lia).
    rewrite take_take. reflexivity.
Qed.

(** X8: a sanitized tool name is left as it is when it is sanitized
    again. *)
Theorem safeToolOf_idempotent (tool : option jsstring) :
  safeToolOf (Some (safeToolOf tool)) = safeToolOf tool.
Proof.
  unfold safeToolOf at 1. rewrite safeToolOf_nonempty.
  apply replaceRunsFrom_id.
  pose proof (safeToolOf_safe tool) as H.
  induction H as [|c l Hc _ IH]; simpl; [reflexivity|].
  rewrite Hc. exact IH.
Qed.

(** ** Links *)

Lemma trim_idempotent s : trim (trim s) = trim s.
Proof.
  unfold trim at 1.
  assert (Hhead : isSpace <$> head (trim s) <> Some true).
  { unfold trim. destruct (trimEnd_prefix (trimStart s)) as [q Hq].
    pose proof (dropWhile_head isSpace s) as H. fold (trimStart s) in H.
    rewrite Hq in H. destruct (trimEnd (trimStart s)); [discriminate | exact H]. }
  unfold trimStart. rewrite dropWhile_id by exact Hhead.
  apply trimEnd_id. apply last_trimEnd.
Qed.

(** X9: a path that [extractFirstLinkedFilePath] returns is the target of
    a link of the text with the white space around it removed, and it is
    not empty. *)
Theorem extractFirstLinkedFilePath_target (text p : jsstring) :
  extractFirstLinkedFilePath text = Some p ->
  p <> [] /\ trim p = p /\ exists raw, raw ∈ matchAllLinks text /\ p = trim raw.
Proof.
  unfold extractFirstLinkedFilePath. intros H.
  assert (Hin : p ∈ linkCandidates text).
  { destruct (find isImagePath (linkCandidates text)) as [q|] eqn:Hfind.
    - injection H as <-. apply find_some in Hfind as [Hin _].
      apply list_elem_of_In, Hin.
    - destruct (linkCandidates text); [discriminate|]. injection H as <-. left. }
  unfold linkCandidates in Hin. apply list_elem_of_filter in Hin as [Hne Hin].
  apply list_elem_of_fmap in Hin as (raw & -> & Hraw).
  split; [intros E; rewrite E in Hne; discriminate|].
  split; [apply trim_idempotent | eauto].
Qed.

Lemma extractFirstLinkedFilePath_target_witness :
  trim (lit "/tmp/out/a.png") = lit "/tmp/out/a.png".
Proof.
  destruct (extractFirstLinkedFilePath_target (lit "See [shot]( /tmp/out/a.png )")
              (lit "/tmp/out/a.png")) as (_ & H & _); [reflexivity | exact H].
Defined.

(** ** Probing the ports and the disk *)

(** X10: [findChromeExecutable] never throws and changes nothing.  What
    it returns exists on disk; it is [CHROME_PATH] whenever that is set,
    not empty and on disk; and it is [null] exactly when no candidate is
    on disk. *)
Theorem findChromeExecutable_on_disk (s : State) :
  exists r,
    findChromeExecutable s = (Ok r, s)
    /\ (forall p, r = Some p -> onDisk s p = true)
    /\ (forall c, CHROME_PATH (env s) = Some c -> c <> [] -> onDisk s c = true ->
          r = Some c)
    /\ (r = None <->
        forall p, p ∈ chromeCandidates (CHROME_PATH (env s)) -> onDisk s p = false).
Proof.
  unfold findChromeExecutable. rewrite bind_run. unfold gets.
  rewrite firstAccessible_find.
  exists (find (onDisk s) (chromeCandidates (CHROME_PATH (env s)))).
  split; [reflexivity|]. split; [|split].
  - intros p Hp. apply find_some in Hp as [_ Hp]. exact Hp.
  - intros c Hc Hne Hon. rewrite Hc. unfold chromeCandidates.
    cbn [default map]. rewrite filter_cons_True by (destruct c; [congruence | reflexivity]).
    cbn [find id]. rewrite Hon. reflexivity.
  - split.
    + intros Hnone p Hp. apply list_elem_of_In in Hp.
      apply (find_none _ _ Hnone p Hp).
    + intros Hall. destruct (find _ _) as [p|] eqn:Hfind; [|reflexivity].
      apply find_some in Hfind as [Hin Hon].
      apply list_elem_of_In in Hin. rewrite (Hall p Hin) in Hon. discriminate.
Qed.

(** X11: an empty range of ports has no free port: the allocator throws
    its error whatever the state of the ports. *)
Theorem findAvailablePort_empty_range (h : jsstring) (start end_ : Z) (s : State) :
  end_ < start ->
  findAvailablePort h start end_ s = (Throw (PortExhausted start end_), s).
Proof.
  intros Hlt. rewrite findAvailablePort_run.
  destruct (firstFreePort s h start end_) as [p|] eqn:Hfree; [|reflexivity].
  apply firstFreePort_Some in Hfree as (Hr & _). lia.
Qed.

Lemma findAvailablePort_empty_range_witness :
  (findAvailablePort (lit "127.0.0.1") 5002 5000 (newManager Sample.cfg Sample.world)).1
  = Throw (PortExhausted 5002 5000).
Proof.
  rewrite (findAvailablePort_empty_range (lit "127.0.0.1") 5002 5000); [reflexivity | lia].
Defined.

Lemma atTime_now s : atTime (now (env s)) s = s.
Proof. destruct s as [? ? ? ? ? ? ? ? ? ? []]. reflexivity. Qed.

Lemma atTime_atTime t t' s : atTime t (atTime t' s) = atTime t s.
Proof. reflexivity. Qed.


(** The loop of the readiness wait: it ends at a time [t] with only the
    clock moved, either with the port open before the deadline, or with
    the time-out error at or after the deadline. *)
Lemma pollPort_run h p deadline fuel s :
  deadline - now (env s) <= 250 * Z.of_nat fuel ->
  exists t, now (env s) <= t
    /\ ((pollPort h p deadline (S fuel) s = (Ok tt, atTime t s)
         /\ t < deadline /\ listening (atTime t s) h p = true)
        \/ (pollPort h p deadline (S fuel) s = (Throw (StartTimeout h p), atTime t s)
            /\ deadline <= t
            /\ (now (env s) < deadline -> t < deadline + 250))).
Proof.
  revert s. induction fuel as [|fuel IH]; intros s Hfuel.
  - exists (now (env s)). split; [lia|]. right.
    cbn [pollPort]. unfold Date_now. munfold.
    destruct (Z.ltb_spec (now (env s)) deadline); [lia|].
    rewrite atTime_now. split; [reflexivity|]. lia.
  - remember (S fuel) as n eqn:Hn. cbn [pollPort]. subst n.
    unfold Date_now, canConnect, sleep. munfold.
    destruct (Z.ltb_spec (now (env s)) deadline) as [Hlt|Hge].
    + destruct (listening s h p) eqn:Hopen.
      * exists (now (env s)). split; [lia|]. left. rewrite atTime_now. auto.
      * fold (atTime (now (env s) + 250) s).
        destruct (IH (atTime (now (env s) + 250) s)) as (t & Ht & Hcase).
        { cbn. lia. }
        cbn in Ht. rewrite atTime_atTime in Hcase.
        exists t. split; [lia|].
        destruct Hcase as [(Hrun & H1 & H2)|(Hrun & H1 & H2)]; [left | right].
        -- auto.
        -- split; [exact Hrun|]. split; [exact H1|]. intros _.
           cbn in H2. destruct (Z.lt_ge_cases (now (env s) + 250) deadline) as [Hl|Hg].
           ++ auto.
           ++ (* the loop stops at the first check past the deadline *)
              clear IH.
              assert (t = now (env s) + 250); [|lia].
              destruct fuel as [|fuel'].
              ** cbn [pollPort] in Hrun. unfold Date_now in Hrun. munfold in Hrun.
                 cbn in Hrun.
                 destruct (Z.ltb_spec (now (env s) + 250) deadline); [lia|].
                 injection Hrun as Hrun. lia.
              ** remember (S fuel') as n eqn:Hn. cbn [pollPort] in Hrun. subst n.
                 unfold Date_now in Hrun. munfold in Hrun. cbn in Hrun.
                 destruct (Z.ltb_spec (now (env s) + 250) deadline); [lia|].
                 injection Hrun as Hrun. lia.
    + exists (now (env s)). split; [lia|]. right.
      rewrite atTime_now. split; [reflexivity|]. lia.
Qed.

Lemma waitForPortOpen_fuel timeoutMs :
  timeoutMs <= 250 * Z.of_nat (Z.to_nat (timeoutMs / 250) + 1).
Proof.
  destruct (Z.le_gt_cases timeoutMs 0) as [Hle|Hgt]; [lia|].
  pose proof (Z.mul_succ_div_gt timeoutMs 250 ltac:(lia)).
  assert (0 <= timeoutMs / 250) by (apply Z.div_pos; lia). lia.
Qed.

Lemma waitForPortOpen_ends (h : jsstring) (p timeoutMs : Z) (s : State) :
  exists t, now (env s) <= t
    /\ ((waitForPortOpen h p timeoutMs s = (Ok tt, atTime t s)
         /\ t < now (env s) + timeoutMs /\ listening (atTime t s) h p = true)
        \/ (waitForPortOpen h p timeoutMs s = (Throw (StartTimeout h p), atTime t s)
            /\ now (env s) + timeoutMs <= t
            /\ (0 < timeoutMs -> t < now (env s) + timeoutMs + 250))).
Proof.
  unfold waitForPortOpen. rewrite bind_run. unfold Date_now, gets.
  replace (Z.to_nat (timeoutMs / 250) + 2)%nat
    with (S (Z.to_nat (timeoutMs / 250) + 1)) by lia.
  destruct (pollPort_run h p (now (env s) + timeoutMs)
              (Z.to_nat (timeoutMs / 250) + 1) s) as (t & Ht & Hcase).
  { pose proof (waitForPortOpen_fuel timeoutMs). lia. }
  exists t. split; [exact Ht|].
  destruct Hcase as [(Hrun & H1 & H2)|(Hrun & H1 & H2)]; [left | right]; rewrite Hrun.
  - auto.
  - split; [reflexivity|]. split; [exact H1|]. intros Hpos. apply H2. lia.
Qed.


(** X13: with a time-out of zero or less the wait throws at once, and
    does not probe the port: also when the port is open. *)
Theorem waitForPortOpen_no_time (h : jsstring) (p timeoutMs : Z) (s : State) :
  timeoutMs <= 0 ->
  waitForPortOpen h p timeoutMs s = (Throw (StartTimeout h p), s).
Proof.
  intros Hle. unfold waitForPortOpen. rewrite bind_run. unfold Date_now, gets.
  replace (Z.to_nat (timeoutMs / 250) + 2)%nat
    with (S (Z.to_nat (timeoutMs / 250) + 1)) by lia.
  cbn [pollPort]. unfold Date_now. munfold.
  destruct (Z.ltb_spec (now (env s)) (now (env s) + timeoutMs)); [lia | reflexivity].
Qed.

Lemma waitForPortOpen_no_time_witness :
  let s := newManager Sample.cfg (Sample.withBound [5000] Sample.world) in
  listening s (lit "127.0.0.1") 5000 = true
  /\ waitForPortOpen (lit "127.0.0.1") 5000 0 s
     = (Throw (StartTimeout (lit "127.0.0.1") 5000), s).
Proof.
  intros s. split; [reflexivity|].
  apply waitForPortOpen_no_time. lia.
Defined.



(** ** The start of the server, step by step *)

Lemma withFs_fs s : withFs (fs (env s)) s = s.
Proof. destruct s as [? ? ? ? ? ? ? ? ? ? []]. reflexivity. Qed.

Lemma mkdir_Ok p s s1 :
  mkdir p s = (Ok tt, s1) ->
  exists f, s1 = withFs f s /\ f !! p = Some Dir
            /\ forall q, fs (env s) !! q = Some Dir -> f !! q = Some Dir.
Proof.
  unfold mkdir. destruct (bool_decide _); [discriminate|].
  destruct (fs (env s) !! p) as [[data|]|] eqn:Hp; [discriminate | |].
  - intros [= <-]. exists (fs (env s)). rewrite withFs_fs. auto.
  - intros [= <-]. exists (<[p := Dir]> (fs (env s))). split; [reflexivity|].
    split; [apply lookup_insert_eq|].
    intros q Hq. destruct (decide (p = q)) as [->|Hne]; [congruence|].
    rewrite lookup_insert_ne by exact Hne. exact Hq.
Qed.

Lemma mkdir_Throw p s e s1 : mkdir p s = (Throw e, s1) -> s1 = s.
Proof.
  unfold mkdir. destruct (bool_decide _); [congruence|].
  destruct (fs (env s) !! p) as [[data|]|]; congruence.
Qed.

Lemma findChromeExecutable_run s :
  findChromeExecutable s
  = (Ok (find (onDisk s) (chromeCandidates (CHROME_PATH (env s)))), s).
Proof.
  unfold findChromeExecutable. rewrite bind_run. unfold gets.
  apply firstAccessible_find.
Qed.

(** The steps of [startServer] up to the spawn: the two directories,
    the port, the executable. *)
Lemma startServer_run s :
  let cfg := config s in
  let userDir := substituteSessionId (user_data_dir cfg) (lit "shared") in
  let outDir := substituteSessionId (output_dir cfg) (lit "shared") in
  (exists e, startServer s = (Throw e, s)
             /\ mkdir userDir s = (Throw e, s))
  \/ (exists f1 e, startServer s = (Throw e, withFs f1 s)
                   /\ mkdir userDir s = (Ok tt, withFs f1 s)
                   /\ mkdir outDir (withFs f1 s) = (Throw e, withFs f1 s))
  \/ exists f, f !! userDir = Some Dir /\ f !! outDir = Some Dir
       /\ (forall q, fs (env s) !! q = Some Dir -> f !! q = Some Dir)
       /\ match firstFreePort (withFs f s) (host cfg) (port_start cfg) (port_end cfg) with
          | None =>
              startServer s
              = (Throw (PortExhausted (port_start cfg) (port_end cfg)), withFs f s)
          | Some p =>
              exists exe,
                startServer s
                = (tryCatch (waitForPortOpen (host cfg) p (timeout_ms cfg))
                     (fun e =>
                        logger Warn (lit "[playwright-mcp] failed to start on "
                                     ++ host cfg ++ lit ":" ++ String_of_int p
                                     ++ lit ": " ++ String_of_error e) ;;
                        tryCatch (kill (length (children s)) (lit "SIGTERM") ;; mret tt)
                          (fun _ => mret tt) ;;
                        setKillTimer (length (children s)) ;;
                        throw e) ;;
                   mret {| info := {| port := p;
                                      url := lit "http://" ++ host cfg ++ lit ":"
                                             ++ String_of_int p ++ lit "/mcp";
                                      userDataDir := userDir;
                                      outputDir := outDir |};
                           child := length (children s) |})
                    (spawnedState f p exe s)
          end.
Proof.
  intros cfg userDir outDir.
  remember (startServer s) as R eqn:HR.
  unfold startServer in HR. rewrite bind_run in HR. unfold gets in HR at 1.
  cbv beta iota in HR. fold cfg userDir outDir in HR. rewrite bind_run in HR.
  destruct (mkdir userDir s) as [[[]|e|] s1] eqn:H1.
  - apply mkdir_Ok in H1 as (f1 & -> & Hu1 & Hk1). rewrite bind_run in HR.
    destruct (mkdir outDir (withFs f1 s)) as [[[]|e|] s2] eqn:H2.
    + apply mkdir_Ok in H2 as (f & -> & Ho & Hk2).
      right. right. exists f. split; [apply Hk2, Hu1|]. split; [exact Ho|].
      split; [intros q Hq; apply Hk2, Hk1, Hq|].
      change (withFs f (withFs f1 s)) with (withFs f s) in HR.
      rewrite bind_run, findAvailablePort_run in HR.
      destruct (firstFreePort (withFs f s) (host cfg) (port_start cfg) (port_end cfg))
        as [p|]; [|exact HR].
      rewrite bind_run in HR.
      destruct (executable_path cfg) as [exe|] eqn:Hexe.
      * exists (Some exe). exact HR.
      * rewrite findChromeExecutable_run in HR. eexists. exact HR.
    + right. left. exists f1, e. pose proof (mkdir_Throw _ _ _ _ H2) as ->. auto.
    + exfalso. apply (total_mkdir outDir (withFs f1 s)). rewrite H2. reflexivity.
  - left. exists e. pose proof (mkdir_Throw _ _ _ _ H1) as ->. auto.
  - exfalso. apply (total_mkdir userDir s). rewrite H1. reflexivity.
Qed.

Lemma insert_snoc {A} (l : list A) (x y : A) : <[length l := y]> (l ++ [x]) = l ++ [y].
Proof. induction l as [|a l IH]; simpl; [reflexivity | f_equal; exact IH]. Qed.

Lemma lookup_snoc {A} (l : list A) (x : A) : (l ++ [x]) !! length l = Some x.
Proof. apply list_lookup_middle. reflexivity. Qed.

(** The handler of a failed readiness wait: the failure is logged, the
    child is sent SIGTERM and marked killed, the kill timer is set, and
    the error is thrown again. *)
Lemma startServer_failed_wait {A} (cfg : PlaywrightMcpSection) (p : Z) (e : error)
  (s : State) (c : ChildProcess) (l : list ChildProcess) :
  children s = l ++ [c] -> exited c = false ->
  (logger Warn (lit "[playwright-mcp] failed to start on " ++ host cfg ++ lit ":"
                ++ String_of_int p ++ lit ": " ++ String_of_error e) ;;
   tryCatch (kill (length l) (lit "SIGTERM") ;; mret tt) (fun _ => mret tt) ;;
   setKillTimer (length l) ;;
   @throw A e) s
  = (Throw e,
     set_timers (timers s ++ [(now (env s) + 2000, length l)])
       (set_children
          (l ++ [mkChild (spawnargs c) (listen_host c) (listen_port c) (listens_from c)
                   (signals c ++ [lit "SIGTERM"]) true (exitCode c) (exited c)])
          (set_logs (logs s ++ [(Warn, lit "[playwright-mcp] failed to start on "
                                       ++ host cfg ++ lit ":" ++ String_of_int p
                                       ++ lit ": " ++ String_of_error e)]) s))).
Proof.
  intros Hch Hex. unfold logger, kill, setKillTimer. munfold. cbn -[lit String_of_error String_of_int].
  rewrite Hch, lookup_snoc, Hex. cbn -[lit String_of_error String_of_int].
  rewrite insert_snoc. reflexivity.
Qed.

(** A start that succeeds, step by step. *)
Lemma startServer_Ok_steps s st s' :
  startServer s = (Ok st, s') ->
  let cfg := config s in
  let userDir := substituteSessionId (user_data_dir cfg) (lit "shared") in
  let outDir := substituteSessionId (output_dir cfg) (lit "shared") in
  exists f p exe t,
    f !! userDir = Some Dir /\ f !! outDir = Some Dir
    /\ firstFreePort (withFs f s) (host cfg) (port_start cfg) (port_end cfg) = Some p
    /\ st = {| info := {| port := p;
                          url := lit "http://" ++ host cfg ++ lit ":"
                                 ++ String_of_int p ++ lit "/mcp";
                          userDataDir := userDir; outputDir := outDir |};
               child := length (children s) |}
    /\ s' = atTime t (spawnedState f p exe s)
    /\ now (env s) <= t < now (env s) + timeout_ms cfg
    /\ listening s' (host cfg) p = true.
Proof.
  intros Hrun cfg userDir outDir.
  destruct (startServer_run s) as [(e & He & _)|[(f1 & e & He & _)|(f & Hu & Ho & _ & Hf)]];
    [congruence | congruence |].
  fold cfg userDir outDir in Hf.
  destruct (firstFreePort (withFs f s) (host cfg) (port_start cfg) (port_end cfg))
    as [p|] eqn:Hfree; [|congruence].
  destruct Hf as (exe & Heq). rewrite Heq in Hrun. clear Heq.
  rewrite bind_run, tryCatch_run in Hrun.
  destruct (waitForPortOpen_ends (host cfg) p (timeout_ms cfg) (spawnedState f p exe s))
    as (t & Ht & [(Hw & Hlt & Hopen)|(Hw & _)]); rewrite Hw in Hrun.
  - injection Hrun as <- <-. exists f, p, exe, t. cbn in Ht, Hlt. repeat split; auto.
  - cbv beta iota in Hrun.
    pose proof (@startServer_failed_wait unit cfg p (StartTimeout (host cfg) p)
                  (atTime t (spawnedState f p exe s)) _ (children s)
                  eq_refl eq_refl) as HF.
    rewrite HF in Hrun. discriminate.
Qed.



(** X16: when [startServer] succeeds, the two directories of its result
    are the configured ones with the placeholder replaced by [shared],
    and both are directories on disk at the return. *)
Theorem startServer_directories (s : State) (st : Started) (s' : State) :
  startServer s = (Ok st, s') ->
  userDataDir (info st) = substituteSessionId (user_data_dir (config s)) (lit "shared")
  /\ outputDir (info st) = substituteSessionId (output_dir (config s)) (lit "shared")
  /\ fs (env s') !! userDataDir (info st) = Some Dir
  /\ fs (env s') !! outputDir (info st) = Some Dir.
Proof.
  intros Hrun.
  destruct (startServer_Ok_steps s st s' Hrun)
    as (f & p0 & exe & t & Hu & Ho & _ & -> & -> & _).
  cbn. auto.
Qed.

Lemma startServer_directories_witness :
  let r := startServer (newManager Sample.cfg Sample.world) in
  fs (env r.2) !! lit "/data/shared/profile" = Some Dir
  /\ fs (env r.2) !! lit "/data/shared/out" = Some Dir.
Proof.
  intros r.
  pose (st := {| info := {| port := 5000; url := lit "http://127.0.0.1:5000/mcp";
                           userDataDir := lit "/data/shared/profile";
                           outputDir := lit "/data/shared/out" |};
                 child := 0 |}).
  destruct (startServer_directories (newManager Sample.cfg Sample.world) st r.2)
    as (_ & _ & H1 & H2).
  - rewrite (surjective_pairing (startServer _)) at 1. f_equal.
  - split; [exact H1 | exact H2].
Defined.

(** A start that fails, step by step. *)
Lemma startServer_Throw_steps s e s' :
  startServer s = (Throw e, s') ->
  (children s' = children s /\ timers s' = timers s)
  \/ exists p c,
       e = StartTimeout (host (config s)) p
       /\ children s' = children s ++ [c]
       /\ killed c = true /\ signals c = [lit "SIGTERM"]
       /\ timers s' = timers s ++ [(now (env s') + 2000, length (children s))]
       /\ now (env s) + timeout_ms (config s) <= now (env s').
Proof.
  intros Hrun.
  destruct (startServer_run s) as [(e0 & He & _)|[(f1 & e0 & He & _)|(f & _ & _ & _ & Hf)]].
  - rewrite He in Hrun. injection Hrun as <- <-. left. auto.
  - rewrite He in Hrun. injection Hrun as <- <-. left. auto.
  - cbv zeta in Hf.
    destruct (firstFreePort (withFs f s) (host (config s)) (port_start (config s))
                (port_end (config s))) as [p|].
    + destruct Hf as (exe & Heq). rewrite Heq in Hrun. clear Heq.
      rewrite bind_run, tryCatch_run in Hrun.
      destruct (waitForPortOpen_ends (host (config s)) p (timeout_ms (config s))
                  (spawnedState f p exe s))
        as (t & Ht & [(Hw & _)|(Hw & Hlate & _)]); rewrite Hw in Hrun.
      * discriminate.
      * cbv beta iota in Hrun.
        pose proof (@startServer_failed_wait unit (config s) p
                      (StartTimeout (host (config s)) p)
                      (atTime t (spawnedState f p exe s)) _ (children s)
                      eq_refl eq_refl) as HF.
        rewrite HF in Hrun. injection Hrun as <- <-.
        right. exists p. eexists. split; [reflexivity|].
        split; [reflexivity|]. split; [reflexivity|]. split; [reflexivity|].
        split; [reflexivity|]. exact Hlate.
    + rewrite Hf in Hrun. injection Hrun as <- <-. left. auto.
Qed.



(** ** The running server is used again *)

Lemma startAttempt_children s :
  children (startAttempt s).2 = children s
  \/ exists c, children (startAttempt s).2 = children s ++ [c].
Proof.
  rewrite startAttempt_run.
  pose proof (total_startServer (pendingStart s)) as Htotal.
  destruct (startServer (pendingStart s)) as [[st|e|] s1] eqn:Hrun; cbn in Htotal |- *.
  - apply startServer_Ok in Hrun as (_ & c & Hc & _). right. exists c. exact Hc.
  - apply startServer_Throw_steps in Hrun as [(Hc & _)|(p & c & _ & Hc & _)].
    + left. exact Hc.
    + right. exists c. exact Hc.
  - congruence.
Qed.

Section Reuse.
Context {platform : Platform}.

(** X18: a call of [ensureServer] that follows one that returned gives
    the same server, and changes nothing: no process is spawned, no port
    probed, no line logged. *)
Theorem ensureServer_again (s : State) (i : PlaywrightServerInfo) (s' : State) :
  reachable s -> ensureServer s = (Ok i, s') -> ensureServer s' = (Ok i, s').
Proof.
  intros Hr Hrun. apply reachable_settled in Hr.
  destruct (ensureServer_returns_live s i s' Hr Hrun)
    as (p & st & c & Hp & Hst & -> & Hc & Hl).
  eapply ensureServer_live; eauto.
Qed.

(** X19: a call of [ensureServer] leaves the processes spawned earlier
    as they are, and spawns one process at most. *)
Theorem ensureServer_spawns_at_most_one (s : State) :
  reachable s ->
  children (ensureServer s).2 = children s
  \/ exists c, children (ensureServer s).2 = children s ++ [c].
Proof.
  intros Hr. apply reachable_settled in Hr as [I1 _].
  destruct (startPromise s) as [p|] eqn:Hp.
  - destruct (I1 p eq_refl) as (st & Hst & Hlt).
    destruct (lookup_lt_is_Some_2 _ _ Hlt) as [c Hc].
    destruct (live c) eqn:Hlive.
    + rewrite (ensureServer_live s p st c) by assumption. left. reflexivity.
    + rewrite (ensureServer_dead s p st c) by assumption.
      apply (startAttempt_children (cleared s)).
  - rewrite ensureServer_idle by exact Hp. apply startAttempt_children.
Qed.

End Reuse.

Lemma ensureServer_again_witness :
  let s := newManager Sample.cfg Sample.world in
  ensureServer (ensureServer s).2 = ensureServer s.
Proof.
  intros s.
  pose (i := {| port := 5000; url := lit "http://127.0.0.1:5000/mcp";
                userDataDir := lit "/data/shared/profile";
                outputDir := lit "/data/shared/out" |}).
  assert (Hrun : ensureServer s = (Ok i, (ensureServer s).2)).
  { rewrite (surjective_pairing (ensureServer s)) at 1. f_equal. }
  rewrite Hrun at 2.
  apply (@ensureServer_again Sample.posix s i); [|exact Hrun].
  exists Sample.cfg, Sample.world, []. reflexivity.
Defined.

Lemma ensureServer_spawns_at_most_one_witness :
  let s := run (platform := Sample.posix) [CallEnsureServer; CallStop]
             (newManager Sample.cfg Sample.world) in
  length (children (ensureServer s).2) = 2%nat.
Proof.
  intros s.
  destruct (@ensureServer_spawns_at_most_one Sample.posix s) as [H|(c & H)].
  - exists Sample.cfg, Sample.world, [CallEnsureServer; CallStop]. reflexivity.
  - exfalso. apply (f_equal length) in H. vm_compute in H. discriminate.
  - rewrite H, length_app. reflexivity.
Defined.

(** ** The kill timers never deliver SIGKILL *)

Lemma sameProcs_refl s : sameProcs s s.
Proof. split; reflexivity. Qed.

Lemma sameProcs_trans s1 s2 s3 : sameProcs s1 s2 -> sameProcs s2 s3 -> sameProcs s1 s3.
Proof. intros [? ?] [? ?]. split; congruence. Qed.

Lemma sameProcs_quiet s0 s : sameProcs s0 s -> quiet s0 -> quiet s.
Proof. intros [Hc Ht] H. unfold quiet. rewrite Hc, Ht. exact H. Qed.

Lemma steady_maintains {A} (m : M A) s0 : steady m -> maintains (sameProcs s0) m.
Proof. intros Hm s H. eapply sameProcs_trans; [exact H | apply Hm]. Qed.

Lemma maintains_steady {A} (m : M A) : (forall s0, maintains (sameProcs s0) m) -> steady m.
Proof. intros H s. apply H, sameProcs_refl. Qed.

Lemma steady_quiet {A} (m : M A) : steady m -> maintains quiet m.
Proof. intros Hm s H. eapply sameProcs_quiet; [apply Hm | exact H]. Qed.

Lemma steady_ret {A} (a : A) : steady (mret a).
Proof. intros s. apply sameProcs_refl. Qed.

Lemma steady_bind {A B} (m : M A) (k : A -> M B) :
  steady m -> (forall a, steady (k a)) -> steady (m ≫= k).
Proof.
  intros Hm Hk. apply maintains_steady. intros s0.
  apply maintains_bind; [|intros a]; apply steady_maintains; auto.
Qed.

Lemma steady_tryCatch {A} (m : M A) (h : error -> M A) :
  steady m -> (forall e, steady (h e)) -> steady (tryCatch m h).
Proof.
  intros Hm Hh. apply maintains_steady. intros s0.
  apply maintains_tryCatch; [|intros e]; apply steady_maintains; auto.
Qed.

Ltac steady_prim :=
  let s := fresh "s" in
  intros s; munfold;
  repeat match goal with
         | |- context [match ?x with _ => _ end] => destruct x
         end;
  split; reflexivity.

Lemma steady_throw {A} e : steady (@throw A e).
Proof. steady_prim. Qed.
Lemma steady_gets {A} (f : State -> A) : steady (gets f).
Proof. steady_prim. Qed.
Lemma steady_logger l msg : steady (logger l msg).
Proof. unfold logger. steady_prim. Qed.
Lemma steady_Date_now : steady Date_now.
Proof. unfold Date_now. steady_prim. Qed.
Lemma steady_sleep ms : steady (sleep ms).
Proof. unfold sleep. steady_prim. Qed.
Lemma steady_mkdir p : steady (mkdir p).
Proof. unfold mkdir. steady_prim. Qed.
Lemma steady_writeFile p data : steady (writeFile p data).
Proof. unfold writeFile. steady_prim. Qed.
Lemma steady_access p : steady (access p).
Proof. unfold access. steady_prim. Qed.
Lemma steady_newClient : steady newClient.
Proof. unfold newClient. steady_prim. Qed.
Lemma steady_connect c t u : steady (connect c t u).
Proof. unfold connect. steady_prim. Qed.
Lemma steady_closeClient c : steady (closeClient c).
Proof. unfold closeClient. steady_prim. Qed.
Lemma steady_callTool c name filename : steady (callTool c name filename).
Proof. unfold callTool. steady_prim. Qed.
Lemma steady_awaitStart p : steady (awaitStart p).
Proof. unfold awaitStart. steady_prim. Qed.
Lemma steady_getChild pid : steady (getChild pid).
Proof. unfold getChild. steady_prim. Qed.
Lemma steady_newStartPromise : steady newStartPromise.
Proof. unfold newStartPromise. steady_prim. Qed.
Lemma steady_settleStart p r : steady (settleStart p r).
Proof. unfold settleStart. steady_prim. Qed.
Lemma steady_newClientPromise server : steady (newClientPromise server).
Proof. unfold newClientPromise. steady_prim. Qed.
Lemma steady_set_startPromise p : steady (modify (set_startPromise p)).
Proof. steady_prim. Qed.
Lemma steady_set_clientPromise p : steady (modify (set_clientPromise p)).
Proof. steady_prim. Qed.

Create HintDb steady.
#[export] Hint Resolve steady_ret steady_throw steady_gets steady_logger
  steady_Date_now steady_sleep steady_mkdir steady_writeFile steady_access
  steady_newClient steady_connect steady_closeClient steady_callTool
  steady_awaitStart steady_getChild steady_newStartPromise steady_settleStart
  steady_newClientPromise steady_set_startPromise steady_set_clientPromise : steady.

Ltac steady_step :=
  match goal with
  | |- steady (_ ≫= _) => apply steady_bind; [|intros ?]
  | |- steady (tryCatch _ _) => apply steady_tryCatch; [|intros ?]
  | |- steady (match ?x with _ => _ end) => destruct x
  | |- steady _ => solve [auto with steady]
  end.

Lemma steady_firstAccessible candidates : steady (firstAccessible candidates).
Proof. intros s. rewrite firstAccessible_find. apply sameProcs_refl. Qed.

Section Steady.
Context {platform : Platform}.

Lemma steady_newURL u : steady (newURL u).
Proof. unfold newURL. destruct (URL_parse u); auto with steady. Qed.

Lemma steady_createClient server : steady (createClient server).
Proof.
  unfold createClient. pose proof steady_newURL.
  repeat steady_step.
Qed.

Lemma steady_settleClient p : steady (settleClient p).
Proof.
  intros s. unfold settleClient.
  destruct (clientPromises s !! p) as [[server|c|e]|]; try apply sameProcs_refl.
  pose proof (steady_createClient server s) as H.
  destruct (createClient server s) as [[c|e|] s1]; exact H.
Qed.

Lemma steady_awaitClient p : steady (awaitClient p).
Proof.
  unfold awaitClient. apply steady_bind; [apply steady_settleClient | intros _].
  unfold readClientPromise. steady_prim.
Qed.

Lemma steady_ensureClient server : steady (ensureClient server).
Proof. unfold ensureClient. repeat steady_step. Qed.

Lemma steady_stopClient : steady stopClient.
Proof.
  unfold stopClient. pose proof steady_awaitClient.
  repeat steady_step.
Qed.

Lemma steady_screenshotFromResponse res expectedPath :
  steady (screenshotFromResponse res expectedPath).
Proof.
  unfold screenshotFromResponse. pose proof steady_firstAccessible.
  destruct (isTrue _); [repeat steady_step|].
  destruct (_ ≫= nonEmpty); repeat steady_step.
Qed.

Lemma steady_produceArtifact client rel expectedPath :
  steady (produceArtifact client rel expectedPath).
Proof.
  unfold produceArtifact. pose proof steady_screenshotFromResponse.
  repeat steady_step.
Qed.

End Steady.

Lemma steady_childWrites toStderr text : steady (childWrites toStderr text).
Proof.
  unfold childWrites. destruct (isEmpty _); [apply steady_ret|].
  destruct toStderr; apply steady_logger.
Qed.

(** A process is added that has been sent no SIGKILL; a timer, if one
    is set, is for that process, which is marked killed. *)
Lemma quiet_spawned s s' c :
  quiet s -> children s' = children s ++ [c] ->
  lit "SIGKILL" ∉ signals c ->
  (timers s' = timers s
   \/ exists due, timers s' = timers s ++ [(due, length (children s))]
                  /\ killed c = true) ->
  quiet s'.
Proof.
  intros [Ha Hb] Hc Hsig Ht.
  assert (Hold : Forall (fun t => exists c0, children s' !! t.2 = Some c0
                                  /\ (killed c0 = true \/ exited c0 = true)) (timers s)).
  { eapply Forall_impl; [exact Hb|]. intros [due pid] (c0 & Hc0 & Hk).
    exists c0. split; [|exact Hk]. rewrite Hc. apply lookup_app_l_Some, Hc0. }
  split.
  - rewrite Hc. apply Forall_app. split; [exact Ha|]. constructor; [exact Hsig | constructor].
  - destruct Ht as [->|(due & -> & Hk)]; [exact Hold|].
    apply Forall_app. split; [exact Hold|]. constructor; [|constructor].
    exists c. split; [|left; exact Hk]. cbn. rewrite Hc. apply lookup_snoc.
Qed.

Lemma SIGTERM_not_SIGKILL : lit "SIGKILL" ∉ [lit "SIGTERM"].
Proof. intros H. apply list_elem_of_singleton in H. discriminate. Qed.

Lemma quiet_startServer : maintains quiet startServer.
Proof.
  intros s H. pose proof (total_startServer s) as Htotal.
  destruct (startServer s) as [[st|e|] s'] eqn:Hrun; cbn in Htotal |- *.
  - destruct (startServer_Ok_steps s st s' Hrun)
      as (f & p & exe & t & _ & _ & _ & _ & -> & _).
    eapply quiet_spawned; [exact H | reflexivity | | left; reflexivity].
    cbn. apply not_elem_of_nil.
  - apply startServer_Throw_steps in Hrun
      as [Hsame|(p & c & _ & Hc & Hk & Hsig & Ht & _)].
    + eapply sameProcs_quiet; [exact Hsame | exact H].
    + eapply quiet_spawned; [exact H | exact Hc | | right; eauto].
      rewrite Hsig. apply SIGTERM_not_SIGKILL.
  - congruence.
Qed.

(** A process is replaced by one that has been sent no SIGKILL and is
    killed or exited if it was before; a timer, if one is set, is for
    that process, which is killed or has exited. *)
Lemma quiet_updated s s' pid c c' :
  quiet s -> children s !! pid = Some c ->
  children s' = <[pid := c']> (children s) ->
  lit "SIGKILL" ∉ signals c' ->
  (killed c = true \/ exited c = true -> killed c' = true \/ exited c' = true) ->
  (timers s' = timers s
   \/ exists due, timers s' = timers s ++ [(due, pid)]
                  /\ (killed c' = true \/ exited c' = true)) ->
  quiet s'.
Proof.
  intros [Ha Hb] Hc Hch Hsig Hmono Ht.
  assert (Hlt : (pid < length (children s))%nat) by (eapply lookup_lt_Some; eauto).
  assert (Hold : Forall (fun t => exists c0, children s' !! t.2 = Some c0
                                  /\ (killed c0 = true \/ exited c0 = true)) (timers s)).
  { eapply Forall_impl; [exact Hb|]. intros [due pid0] (c0 & Hc0 & Hk). cbn in Hc0 |- *.
    rewrite Hch. destruct (decide (pid = pid0)) as [<-|Hne].
    - exists c'. rewrite list_lookup_insert_eq by exact Hlt. split; [reflexivity|].
      apply Hmono. congruence.
    - exists c0. rewrite list_lookup_insert_ne by exact Hne. auto. }
  split.
  - rewrite Hch. apply Forall_insert; assumption.
  - destruct Ht as [->|(due & -> & Hk)]; [exact Hold|].
    apply Forall_app. split; [exact Hold|]. constructor; [|constructor].
    exists c'. split; [|exact Hk]. cbn. rewrite Hch.
    apply list_lookup_insert_eq. exact Hlt.
Qed.

Lemma quiet_signals s pid c :
  quiet s -> children s !! pid = Some c -> lit "SIGKILL" ∉ signals c.
Proof.
  intros [Ha _] Hc. rewrite Forall_lookup in Ha. exact (Ha pid c Hc).
Qed.

(** The end of [stop]: SIGTERM to the cached process and the timer, if
    the process is not marked killed. *)
Lemma quiet_stopChild pid :
  maintains quiet
    (c ← getChild pid;
     if negb (killed c) then kill pid (lit "SIGTERM") ;; setKillTimer pid
     else mret tt).
Proof.
  intros s H. unfold getChild, kill, setKillTimer. munfold.
  destruct (children s !! pid) as [c|] eqn:Hc; [|exact H].
  destruct (killed c) eqn:Hk; cbn -[lit]; [exact H|].
  rewrite Hc. destruct (exited c) eqn:Hex; cbn -[lit].
  - apply (quiet_updated s _ pid c c H Hc).
    + cbn. symmetry. apply list_insert_id, Hc.
    + eapply quiet_signals; eauto.
    + auto.
    + right. eexists. split; [reflexivity|]. right. exact Hex.
  - eapply (quiet_updated s _ pid c _ H Hc).
    + reflexivity.
    + cbn -[lit]. intros Hin. apply elem_of_app in Hin as [Hin|Hin].
      * eapply quiet_signals; eauto.
      * apply SIGTERM_not_SIGKILL, Hin.
    + intros _. left. reflexivity.
    + right. eexists. split; [reflexivity|]. left. reflexivity.
Qed.

Lemma quiet_childExits pid code signal : maintains quiet (childExits pid code signal).
Proof.
  intros s H. unfold childExits.
  destruct (children s !! pid) as [c|] eqn:Hc; [|exact H].
  destruct (exited c) eqn:Hex; [exact H|].
  unfold logger. munfold. cbn -[lit].
  eapply (quiet_updated s _ pid c _ H Hc).
  - reflexivity.
  - cbn. eapply quiet_signals; eauto.
  - intros _. right. reflexivity.
  - left. reflexivity.
Qed.

(** A timer that fires finds its process killed or exited: no signal is
    delivered, and the processes are as before. *)
Lemma timerFires_run i s :
  quiet s ->
  exists s', timerFires i s = (Ok tt, s') /\ children s' = children s
             /\ (timers s' = timers s \/ timers s' = delete i (timers s))
             /\ outer s s'.
Proof.
  intros [_ Hb]. unfold timerFires, Date_now, getChild, kill. munfold.
  destruct (timers s !! i) as [[due pid]|] eqn:Hi;
    [|exists s; split; [reflexivity|]; split; [reflexivity|]; split;
       [left; reflexivity | apply outer_refl]].
  destruct (due <=? now (env s));
    [|exists s; split; [reflexivity|]; split; [reflexivity|]; split;
       [left; reflexivity | apply outer_refl]].
  cbn -[lit]. rewrite Forall_lookup in Hb.
  destruct (Hb i (due, pid) Hi) as (c & Hc & Hk). cbn in Hc. rewrite Hc.
  destruct (killed c) eqn:Hkilled; cbn -[lit].
  - eexists. split; [reflexivity|]. split; [reflexivity|]. split;
      [right; reflexivity | repeat split].
  - destruct Hk as [Hk|Hk]; [discriminate|]. rewrite Hc, Hk. cbn -[lit].
    eexists. split; [reflexivity|]. split; [reflexivity|]. split;
      [right; reflexivity | repeat split].
Qed.

Lemma quiet_timerFires i : maintains quiet (timerFires i).
Proof.
  intros s H. destruct (timerFires_run i s H) as (s' & -> & Hc & Ht & _).
  destruct H as [Ha Hb]. split; cbn; rewrite Hc; [exact Ha|].
  destruct Ht as [->| ->]; [exact Hb|]. apply Forall_delete, Hb.
Qed.

Ltac quiet_step :=
  match goal with
  | |- maintains quiet startServer => apply quiet_startServer
  | |- maintains quiet (getChild _ ≫= _) => apply quiet_stopChild
  | |- maintains _ (_ ≫= _) => apply maintains_bind; [|intros ?]
  | |- maintains _ (tryCatch _ _) => apply maintains_tryCatch; [|intros ?]
  | |- maintains _ (mret _) => apply maintains_ret
  | |- maintains _ (match ?x with _ => _ end) => destruct x
  | |- maintains quiet _ => apply steady_quiet; solve [auto with steady]
  end.

Lemma steady_reuseServer : steady reuseServer.
Proof. unfold reuseServer. repeat steady_step. Qed.

Lemma quiet_ensureServer : maintains quiet ensureServer.
Proof.
  unfold ensureServer.
  apply maintains_bind; [apply steady_quiet, steady_reuseServer | intros [i|]].
  - apply maintains_ret.
  - unfold startAttempt. repeat quiet_step.
Qed.

Section Quiet.
Context {platform : Platform}.

Lemma quiet_stop : maintains quiet stop.
Proof.
  unfold stop.
  apply maintains_bind; [apply steady_quiet, steady_stopClient | intros _].
  unfold stopServer. repeat quiet_step.
Qed.

Lemma quiet_takeScreenshot opts : maintains quiet (takeScreenshot opts).
Proof.
  unfold takeScreenshot.
  apply maintains_bind; [apply quiet_ensureServer | intros server].
  apply steady_quiet.
  pose proof steady_ensureClient. pose proof steady_awaitClient.
  pose proof steady_produceArtifact.
  repeat steady_step.
Qed.

Lemma quiet_handle ev : maintains quiet (handle ev).
Proof.
  destruct ev as [| |opts|pid code signal|toStderr text|i|f]; cbn [handle].
  - apply maintains_bind; [apply quiet_ensureServer | intros ?; apply maintains_ret].
  - apply quiet_stop.
  - apply maintains_bind; [apply quiet_takeScreenshot | intros ?; apply maintains_ret].
  - apply quiet_childExits.
  - apply steady_quiet, steady_childWrites.
  - apply quiet_timerFires.
  - intros s H. exact H.
Qed.

Lemma reachable_quiet s : reachable s -> quiet s.
Proof.
  intros (cfg & e & evs & ->).
  assert (H : quiet (newManager cfg e)) by (split; constructor).
  revert H. generalize (newManager cfg e).
  induction evs as [|ev evs IH]; intros s H; [exact H|].
  cbn. apply IH. apply quiet_handle, H.
Qed.

(** X20: the timers that [stop] and a failed start set for SIGKILL never
    deliver it.  A signal to a process that has not exited is delivered
    and marks the process killed, so a timer is only ever set for a
    process that is marked killed or has exited: in every state a
    manager can be in, no process has been sent SIGKILL. *)
Theorem kill_timer_never_escalates (s : State) :
  reachable s -> Forall (fun c => lit "SIGKILL" ∉ signals c) (children s).
Proof. intros H. apply reachable_quiet in H as [Ha _]. exact Ha. Qed.

(** X21: when a kill timer fires, in any state a manager can be in, the
    handler returns and every process is as it was. *)
Theorem timerFires_changes_no_process (s : State) (i : nat) :
  reachable s ->
  exists s', timerFires i s = (Ok tt, s') /\ children s' = children s.
Proof.
  intros H. apply reachable_quiet in H.
  destruct (timerFires_run i s H) as (s' & Hrun & Hc & _). eauto.
Qed.

End Quiet.

Lemma kill_timer_never_escalates_witness :
  let s := run (platform := Sample.posix)
             [CallEnsureServer; CallStop;
              EnvChanges (fun e => set_now (now e + 5000) e); TimerFires 0]
             (newManager Sample.cfg Sample.world) in
  map signals (children s) = [[lit "SIGTERM"]] /\ timers s = []
  /\ Forall (fun c => lit "SIGKILL" ∉ signals c) (children s).
Proof.
  intros s. split; [reflexivity|]. split; [reflexivity|].
  apply (@kill_timer_never_escalates Sample.posix s).
  eexists Sample.cfg, Sample.world, _. reflexivity.
Defined.

Lemma timerFires_changes_no_process_witness :
  let s := run (platform := Sample.posix)
             [CallEnsureServer; CallStop;
              EnvChanges (fun e => set_now (now e + 5000) e)]
             (newManager Sample.cfg Sample.world) in
  map killed (children s) = [true] /\ timers s = [(1700000002500, 0%nat)]
  /\ exists s', timerFires 0 s = (Ok tt, s') /\ children s' = children s.
Proof.
  intros s. split; [reflexivity|]. split; [reflexivity|].
  apply (@timerFires_changes_no_process Sample.posix s 0).
  eexists Sample.cfg, Sample.world, _. reflexivity.
Defined.

(** ** [stop] *)

Lemma stopServer_idle s : startPromise s = None -> stopServer s = (Ok tt, s).
Proof. intros H. unfold stopServer. munfold. rewrite H. reflexivity. Qed.

(** [stopServer] on a cached start: nothing for a process marked killed;
    else the timer is set, and SIGTERM delivered if the process has not
    exited. *)
Lemma stopServer_cached s p st c :
  startPromise s = Some p -> startPromises s !! p = Some (Fulfilled st) ->
  children s !! child st = Some c ->
  stopServer s
  = (Ok tt,
     if killed c then s
     else set_timers (timers s ++ [(now (env s) + 2000, child st)])
            (if exited c then s
             else set_children
                    (<[child st := mkChild (spawnargs c) (listen_host c) (listen_port c)
                                     (listens_from c) (signals c ++ [lit "SIGTERM"]) true
                                     (exitCode c) (exited c)]> (children s)) s)).
Proof.
  intros Hp Hst Hc. unfold stopServer, awaitStart, getChild, kill, setKillTimer. munfold.
  rewrite Hp, Hst, Hc. destruct (killed c); cbn -[lit]; [reflexivity|].
  rewrite Hc. destruct (exited c); reflexivity.
Qed.

Section StopRuns.
Context {platform : Platform}.

Lemma stop_run s :
  cacheSettled s ->
  exists s', stop s = (Ok tt, s') /\ similar s s'
    /\ match startPromise s with
       | None => children s' = children s
       | Some p =>
           forall st c,
             startPromises s !! p = Some (Fulfilled st) ->
             children s !! child st = Some c ->
             children s'
             = if killed c || exited c then children s
               else <[child st := mkChild (spawnargs c) (listen_host c) (listen_port c)
                                    (listens_from c) (signals c ++ [lit "SIGTERM"]) true
                                    (exitCode c) (exited c)]> (children s)
       end.
Proof.
  intros Hs. destruct (stopClient_run s Hs) as (s1 & Hrun & Hsim & Hch).
  pose proof (cacheSettled_similar _ _ Hsim Hs) as [I1 _].
  destruct Hsim as (Hcfg & Hsp & Hcp & Hsps & Hcps & Hlen).
  unfold stop. rewrite bind_run, Hrun. cbv beta iota.
  destruct (startPromise s) as [p|] eqn:Hp.
  - destruct (I1 p Hsp) as (st & Hst & Hlt).
    destruct (lookup_lt_is_Some_2 _ _ Hlt) as [c Hc].
    rewrite (stopServer_cached s1 p st c Hsp Hst Hc).
    eexists. split; [reflexivity|]. split.
    + destruct (killed c); [|destruct (exited c)]; repeat split; cbn -[lit];
        rewrite ?length_insert; congruence.
    + intros st0 c0 Hst0 Hc0. rewrite Hsps in Hst. rewrite Hch in Hc.
      assert (st0 = st) as -> by congruence. assert (c0 = c) as -> by congruence.
      destruct (killed c); [|destruct (exited c)]; cbn -[lit]; congruence.
  - rewrite (stopServer_idle s1 Hsp).
    eexists. split; [reflexivity|]. split; [repeat split; congruence | exact Hch].
Qed.

(** X22: in every state a manager can be in, [stop] returns: what the
    client or the start threw is swallowed.  It leaves the cached
    promises in place: that the process is gone is found by the next
    [ensureServer], from the process itself. *)
Theorem stop_returns (s : State) :
  reachable s ->
  exists s', stop s = (Ok tt, s')
             /\ startPromise s' = startPromise s /\ clientPromise s' = clientPromise s.
Proof.
  intros Hr. apply reachable_settled in Hr.
  destruct (stop_run s Hr) as (s' & Hrun & (_ & Hsp & Hcp & _) & _). eauto.
Qed.

(** X23: a second [stop] delivers no signal: after a [stop] the cached
    process is marked killed or has exited, and the processes are left
    as they are. *)
Theorem stop_again (s : State) :
  reachable s -> children (stop (stop s).2).2 = children (stop s).2.
Proof.
  intros Hr. apply reachable_settled in Hr.
  destruct (stop_run s Hr) as (s1 & Hrun & Hsim & Hch). rewrite Hrun. cbn [snd].
  pose proof (cacheSettled_similar _ _ Hsim Hr) as Hs1.
  destruct (stop_run s1 Hs1) as (s2 & Hrun2 & _ & Hch2). rewrite Hrun2. cbn [snd].
  destruct Hr as [I1 _]. destruct Hsim as (_ & Hsp & _ & Hsps & _ & _).
  rewrite Hsp in Hch2. destruct (startPromise s) as [p|] eqn:Hp; [|exact Hch2].
  destruct (I1 p eq_refl) as (st & Hst & Hlt).
  destruct (lookup_lt_is_Some_2 _ _ Hlt) as [c Hc].
  specialize (Hch st c Hst Hc). rewrite Hsps in Hch2.
  destruct (killed c || exited c) eqn:Hdone.
  - rewrite Hch in Hch2. rewrite (Hch2 st c Hst Hc), Hdone. symmetry. exact Hch.
  - erewrite Hch2; [|exact Hst|rewrite Hch; apply list_lookup_insert_eq, Hlt].
    reflexivity.
Qed.

End StopRuns.

Lemma stop_returns_witness :
  let s := run (platform := Sample.posix) [CallTakeScreenshot Sample.opts]
             (newManager Sample.cfg Sample.world) in
  (@stop Sample.posix s).1 = Ok tt
  /\ startPromise (@stop Sample.posix s).2 = Some 0%nat
  /\ clientPromise (@stop Sample.posix s).2 = Some 0%nat.
Proof.
  intros s.
  destruct (@stop_returns Sample.posix s) as (s' & Hrun & Hsp & Hcp).
  - eexists Sample.cfg, Sample.world, _. reflexivity.
  - rewrite Hrun. cbn [fst snd]. rewrite Hsp, Hcp. repeat split.
Defined.

Lemma stop_again_witness :
  let s := run (platform := Sample.posix) [CallEnsureServer]
             (newManager Sample.cfg Sample.world) in
  map signals (children (@stop Sample.posix (@stop Sample.posix s).2).2)
  = [[lit "SIGTERM"]].
Proof.
  intros s. rewrite (@stop_again Sample.posix s); [reflexivity|].
  eexists Sample.cfg, Sample.world, _. reflexivity.
Defined.

(** ** What [takeScreenshot] returns *)

Lemma writeFile_Ok p data s s' :
  writeFile p data s = (Ok tt, s') -> onDisk s' p = true.
Proof.
  unfold writeFile, onDisk. destruct (bool_decide _); [discriminate|].
  destruct (fs (env s) !! p) as [[d|]|]; [|discriminate|];
    intros [= <-]; cbn; apply bool_decide_eq_true; rewrite lookup_insert_eq; eauto.
Qed.

Section Artifact.
Context {platform : Platform}.

Lemma screenshotFromResponse_on_disk res expectedPath s r s' :
  screenshotFromResponse res expectedPath s = (Ok (Some r), s') ->
  exists path, savedPath r = Some path /\ onDisk s' path = true.
Proof.
  unfold screenshotFromResponse. destruct (isTrue _).
  { intros H. apply bind_Ok in H as ([] & s1 & _ & H). discriminate. }
  destruct (_ ≫= nonEmpty) as [b|].
  - intros H. apply bind_Ok in H as ([] & s1 & Hw & H). injection H as <- <-.
    exists expectedPath. split; [reflexivity|]. eapply writeFile_Ok, Hw.
  - intros H. apply bind_Ok in H as (found & s1 & Hf & H).
    rewrite firstAccessible_find in Hf. injection Hf as <- <-.
    destruct (find (onDisk s) _) as [c|] eqn:Hfind; [|discriminate].
    injection H as <- <-. exists c. split; [reflexivity|].
    apply find_some in Hfind as [_ Hc]. exact Hc.
Qed.

(** X24: a path that [takeScreenshot] returns exists on disk at the
    return: it is the file just written from the inline image, or a
    candidate whose [access] succeeded. *)
Theorem takeScreenshot_result_on_disk (opts : ScreenshotOpts) (s : State)
  (r : ScreenshotResult) (s' : State) :
  takeScreenshot opts s = (Ok (Some r), s') ->
  exists path, savedPath r = Some path /\ onDisk s' path = true.
Proof.
  unfold takeScreenshot. intros H.
  apply bind_Ok in H as (server & s1 & _ & H).
  apply bind_Ok in H as (cp & s2 & _ & H).
  apply bind_Ok in H as (client & s3 & _ & H).
  apply bind_Ok in H as (t & s4 & _ & H).
  apply bind_Ok in H as ([] & s5 & _ & H).
  unfold produceArtifact in H.
  apply tryCatch_Ok in H as [H|(e & s6 & _ & H)].
  - apply bind_Ok in H as (res & s6 & _ & H).
    eapply screenshotFromResponse_on_disk, H.
  - apply bind_Ok in H as ([] & s7 & _ & H). discriminate.
Qed.

(** X25: once [ensureServer] has returned, a [takeScreenshot] uses the
    running server: it spawns no process, sends no signal and sets no
    timer. *)
Theorem takeScreenshot_reuses_server (opts : ScreenshotOpts) (s : State)
  (i : PlaywrightServerInfo) (s' : State) :
  reachable s -> ensureServer s = (Ok i, s') ->
  children (takeScreenshot opts s').2 = children s'
  /\ timers (takeScreenshot opts s').2 = timers s'.
Proof.
  intros Hr Hrun. apply reachable_settled in Hr.
  destruct (ensureServer_returns_live s i s' Hr Hrun)
    as (p & st & c & Hp & Hst & -> & Hc & Hl).
  unfold takeScreenshot. rewrite bind_run, (ensureServer_live s' p st c Hp Hst Hc Hl).
  cbv beta iota.
  match goal with
  | |- children (?m s').2 = _ /\ _ => assert (Hm : steady m)
  end.
  { pose proof steady_ensureClient. pose proof steady_awaitClient.
    pose proof steady_produceArtifact. repeat steady_step. }
  exact (Hm s').
Qed.

End Artifact.

Lemma takeScreenshot_result_on_disk_witness :
  let e := Sample.withTool {| tool_files := []; tool_result := inr Sample.imageResponse |}
             Sample.world in
  let r := @takeScreenshot Sample.posix Sample.opts (newManager Sample.cfg e) in
  onDisk r.2 (lit "/data/shared/out/s1/browser-click-auto-1700000000500.png") = true.
Proof.
  intros e r.
  destruct (@takeScreenshot_result_on_disk Sample.posix Sample.opts
              (newManager Sample.cfg e)
              {| savedPath := Some (lit "/data/shared/out/s1/browser-click-auto-1700000000500.png");
                 mimeType := Some (lit "image/png") |} r.2) as (path & Hp & Hd).
  - rewrite (surjective_pairing (takeScreenshot _ _)) at 1. f_equal.
  - cbn [savedPath] in Hp. injection Hp as <-. exact Hd.
Defined.

Lemma takeScreenshot_reuses_server_witness :
  let s := newManager Sample.cfg Sample.world in
  let s' := (ensureServer s).2 in
  length (children (@takeScreenshot Sample.posix Sample.opts s').2) = 1%nat.
Proof.
  intros s s'.
  pose (i := {| port := 5000; url := lit "http://127.0.0.1:5000/mcp";
                userDataDir := lit "/data/shared/profile";
                outputDir := lit "/data/shared/out" |}).
  destruct (@takeScreenshot_reuses_server Sample.posix Sample.opts s i s') as [H _].
  - exists Sample.cfg, Sample.world, []. reflexivity.
  - unfold s'. rewrite (surjective_pairing (ensureServer s)) at 1. f_equal.
  - rewrite H. reflexivity.
Defined.

(** ** The output of the server *)

(** X26: a chunk of the server's output that is blank is not logged;
    any other is logged once, trimmed, as a warning when it comes from
    the error stream and as a debug line otherwise. *)
Theorem childWrites_logs (toStderr : bool) (text : jsstring) (s : State) :
  childWrites toStderr text s
  = (Ok tt,
     if forallb isSpace text then s
     else set_logs
            (logs s ++ [if toStderr
                        then (Warn, lit "[playwright-mcp] stderr: " ++ trim text)
                        else (Debug, lit "[playwright-mcp] " ++ trim text)]) s).
Proof.
  unfold childWrites. pose proof (trim_nil_iff text) as Hiff.
  destruct (trim text) as [|c t] eqn:Ht; cbn [isEmpty].
  - rewrite (proj1 Hiff eq_refl). reflexivity.
  - destruct (forallb isSpace text); [destruct Hiff as [_ H]; discriminate (H eq_refl)|].
    destruct toStderr; reflexivity.
Qed.

(** ** A server that comes up in time is found *)







